(** * censor-ai: the segment merger and the frame decision engine

    A shallow embedding of [backend/main.go] (the analyzer [processVideo],
    the editor [blurInappropriateContent] / [trimInappropriateContent],
    the rating scale [getRatingValue] and the request validation of
    [convertVideo]), followed by the properties of the specification.

    Modelling choices.
    - Go's [float64] is Rocq's primitive binary64 [float]: the same IEEE 754
      format and rounding, so every evaluation below is bit-exact.
    - Go's [int] is [Z]; frame indices never leave the non-negative range.
    - Go strings are byte strings, here [string] (a list of [ascii] bytes).
    - [map[string]bool] used as a set is stdpp's [gset string].
    - [strings.ToLower] and [strings.TrimSpace] are modelled on ASCII
      strings, where they act on bytes. What is stated of the notes of
      arbitrary strings is stated of [mergeWith], the merger with the
      library's normalisation as a parameter.
    - [sort.Slice] is not stable: what depends on the order in which the
      segments are scanned is stated for every arrangement of them.
    - The collaborators (video decoder, JPEG encoder, classifier, JSON
      decoder, upload store) are inputs: a video is the list of frames the
      decoder yields, and every frame carries what the encoder and the
      classifier answer for it. *)

From Stdlib Require Import Floats ZArith String Ascii List Bool Lia.
From stdpp Require Import gmap strings sorting.
Import ListNotations.

#[local] Set Warnings "-inexact-float,-clear-no-such-hyp".

Local Open Scope string_scope.
Local Open Scope list_scope.
Local Open Scope Z_scope.

(** ** Data model *)

(** [type RatingResult struct { Start, End float64; Rating, Notes string }];
    [End] is a reserved word of Rocq, hence [End_]. *)
Record RatingResult := mkRatingResult {
  Start  : float;
  End_   : float;
  Rating : string;
  Notes  : string
}.

(** ** Floating-point comparisons and conversions *)

Module F.

Definition le (x y : float) : Prop := PrimFloat.leb x y = true.
Definition lt (x y : float) : Prop := PrimFloat.ltb x y = true.

(** [float64(i)] for a non-negative [int]. *)
Definition of_int (i : Z) : float := PrimFloat.of_uint63 (Uint63.of_Z i).

(** [int(f)]: truncation towards zero. Go leaves the result
    implementation-dependent when the value does not fit (NaN, infinities,
    magnitudes from 2^63 on): [None]. *)
Definition to_int (f : float) : option Z :=
  match Prim2SF f with
  | S754_zero _ => Some 0
  | S754_finite s m e =>
      let a := if 0 <=? e then Z.shiftl (Z.pos m) e
               else Z.shiftr (Z.pos m) (- e) in
      let v := if s then - a else a in
      if (- 2 ^ 63 <=? v) && (v <? 2 ^ 63) then Some v else None
  | _ => None
  end.

End F.

(** ** The [strings] and [sort] functions used by the merger *)

Module Strings.

(** [strings.Split(s, sep)] for a one-byte separator: [n] separators give
    [n + 1] pieces, and the empty string gives one empty piece. *)
Fixpoint Split (s : string) (sep : ascii) : list string :=
  match s with
  | EmptyString => [EmptyString]
  | String c rest =>
      if Ascii.eqb c sep then EmptyString :: Split rest sep
      else match Split rest sep with
           | tok :: toks => String c tok :: toks
           | [] => [String c EmptyString]
           end
  end.

(** [strings.ToLower] on ASCII strings: [A]..[Z] go to [a]..[z] and the
    other bytes are kept. Go's function is this one when every byte of the
    string is below 128; on other strings it decodes UTF-8 and maps every
    rune by the Unicode tables, which this definition does not. What is
    stated about notes beyond ASCII is stated of [mergeWith] below, where
    the library's normalisation is a parameter. *)
Definition lower_byte (c : ascii) : ascii :=
  let n := N_of_ascii c in
  if ((65 <=? n) && (n <=? 90))%N then ascii_of_N (n + 32) else c.

Fixpoint ToLower (s : string) : string :=
  match s with
  | EmptyString => EmptyString
  | String c rest => String (lower_byte c) (ToLower rest)
  end.

(** The ASCII white space of [unicode.IsSpace]: tab, line feed, vertical
    tab, form feed, carriage return, space. [strings.TrimSpace] also trims
    the white space beyond ASCII (U+0085, U+00A0 and the Unicode space
    separators); [TrimSpace] below is Go's function on strings whose first
    and last bytes that are not ASCII white space are ASCII bytes, and in
    particular on ASCII strings. *)
Definition is_space (c : ascii) : bool :=
  let n := N_of_ascii c in
  (((9 <=? n) && (n <=? 13)) || (n =? 32))%N.

Fixpoint TrimLeft (s : string) : string :=
  match s with
  | EmptyString => EmptyString
  | String c rest => if is_space c then TrimLeft rest else s
  end.

(** Drops the trailing white space: a space is kept only when something
    that is kept follows it. *)
Fixpoint TrimRight (s : string) : string :=
  match s with
  | EmptyString => EmptyString
  | String c rest =>
      match TrimRight rest with
      | EmptyString => if is_space c then EmptyString else String c EmptyString
      | kept => String c kept
      end
  end.

Definition TrimSpace (s : string) : string := TrimRight (TrimLeft s).

(** [strings.Join(elems, sep)]. *)
Fixpoint Join (elems : list string) (sep : string) : string :=
  match elems with
  | [] => EmptyString
  | [e] => e
  | e :: rest => (e ++ sep ++ Join rest sep)%string
  end.

(** The order of [sort.Strings]: byte-wise lexicographic. *)
Definition le (s1 s2 : string) : Prop := String.leb s1 s2 = true.

#[export] Instance le_dec : RelDecision le.
Proof. intros s1 s2. unfold le. apply _. Defined.

(** [sort.Strings]. The sorted arrangement of a list is unique (see
    [SortStrings_perm]), so the algorithm does not matter. *)
Definition SortStrings (l : list string) : list string := merge_sort le l.

End Strings.

(** ** The merger: [processVideo], lines 126-128 and 161-214 *)

(** The variables the sampling loop carries from one sample to the next. *)
Record MergeState := mkMergeState {
  results       : list RatingResult;
  lastRating    : string;
  startTime     : float;
  combinedNotes : gset string
}.

(** [var results []RatingResult; var lastRating string; var startTime float64;
    combinedNotes := make(map[string]bool)]. *)
Definition initState : MergeState :=
  mkMergeState [] "" 0%float ∅.

(** One turn of [for _, note := range strings.Split(notes, ",")]. *)
Definition addNote (acc : gset string) (note : string) : gset string :=
  let note := Strings.TrimSpace (Strings.ToLower note) in
  if negb (String.eqb note "") && negb (String.eqb note "none")
  then {[ note ]} ∪ acc else acc.

Definition addNotes (acc : gset string) (notes : string) : gset string :=
  fold_left addNote (Strings.Split notes ",") acc.

(** [for note := range combinedNotes { notesList = append(notesList, note) }]
    visits the keys in an unspecified order; [elements] is one such order and
    the sort that follows makes the result independent of it. *)
Definition notesStr (combined : gset string) : string :=
  Strings.Join (Strings.SortStrings (elements combined)) ", ".

(** The segment appended when the open segment is closed at [endTime]. *)
Definition closedSegment (st : MergeState) (endTime : float) : RatingResult :=
  mkRatingResult (startTime st) endTime (lastRating st) (notesStr (combinedNotes st)).

(** [if lastRating != "" { ... results = append(results, ...) }]. *)
Definition emitOpen (st : MergeState) (endTime : float) : list RatingResult :=
  if String.eqb (lastRating st) "" then results st
  else results st ++ [closedSegment st endTime].

(** Lines 161-194: the treatment of one classified sample. *)
Definition mergeStep (st : MergeState) (timestamp : float)
    (rating notes : string) : MergeState :=
  if String.eqb rating (lastRating st) then
    mkMergeState (results st) (lastRating st) (startTime st)
                 (addNotes (combinedNotes st) notes)
  else
    mkMergeState (emitOpen st (timestamp - 1)%float) rating timestamp
                 (addNotes ∅ notes).

(** A classified sample: the timestamp of the frame and the classifier's
    answer. *)
Record Sample := mkSample {
  timestamp : float;
  rating    : string;
  notes     : string
}.

Definition mergeSamples (st : MergeState) (samples : list Sample) : MergeState :=
  fold_left (fun st s => mergeStep st (timestamp s) (rating s) (notes s)) samples st.

(** The merger on a whole sample sequence: the loop body on every sample,
    then lines 200-214 with [totalDuration = float64(frameIndex) / fps]. *)
Definition merge (samples : list Sample) (totalDuration : float) : list RatingResult :=
  emitOpen (mergeSamples initState samples) totalDuration.

(** ** The analyzer: [processVideo] *)

(** What [analyzeFrameWithOpenAI] returns for a frame: [(rating, notes, nil)]
    or an error. *)
Inductive Verdict :=
| Classified (rating notes : string)
| ClassifierError (err : string).

(** A frame the decoder yields, with the collaborators' answers for it:
    whether [gocv.IMEncode] succeeds, and the classifier's verdict. *)
Record Frame := mkFrame {
  encodes : bool;
  verdict : Verdict
}.

(** An opened video: the properties read with [video.Get] and the frames
    that [video.Read] yields until it fails or yields an empty image. *)
Record Video := mkVideo {
  VideoCaptureFPS        : float;
  VideoCaptureFrameCount : float;
  frames                 : list Frame
}.

(** [gocv.VideoCaptureFile(videoPath)]. *)
Inductive OpenResult :=
| Opened (video : Video)
| OpenError (err : string).

(** How a Go function ends: it returns a value, returns an error, panics
    (integer division by zero), or its result is left open by the language
    (the out-of-range float to integer conversion). *)
Inductive Outcome (A : Type) :=
| Returned (a : A)
| Failed (err : string)
| Panicked
| Unportable.
Arguments Returned {A} a.
Arguments Failed {A} err.
Arguments Panicked {A}.
Arguments Unportable {A}.

(** [if fps <= 0 { fps = 30 }]. *)
Definition defaultFps (fps : float) : float :=
  if PrimFloat.leb fps 0 then 30%float else fps.

(** The synthetic segment of lines 155-158; [End] and [Notes] keep their
    zero values. *)
Definition errorSegment (timestamp : float) (err : string) : RatingResult :=
  mkRatingResult timestamp 0 ("Error: " ++ err)%string "".

(** The frame loop of [processVideo], lines 133-216. The second component
    lists, in order, the indices of the frames handed to the classifier. *)
Fixpoint sampleLoop (fps : float) (frames : list Frame) (frameIndex : Z)
    (st : MergeState) : Outcome (list RatingResult) * list Z :=
  match frames with
  | [] => (Returned (emitOpen st (F.of_int frameIndex / fps)%float), [])
  | f :: rest =>
      match F.to_int fps with
      | None => (Unportable, [])
      | Some 0 => (Panicked, [])
      | Some step =>
          if Z.rem frameIndex step =? 0 then
            let timestamp := (F.of_int frameIndex / fps)%float in
            if negb (encodes f) then sampleLoop fps rest (frameIndex + 1) st
            else
              match verdict f with
              | ClassifierError err =>
                  (Returned [errorSegment timestamp err], [frameIndex])
              | Classified rating notes =>
                  let (out, calls) :=
                    sampleLoop fps rest (frameIndex + 1)
                               (mergeStep st timestamp rating notes) in
                  (out, frameIndex :: calls)
              end
          else sampleLoop fps rest (frameIndex + 1) st
      end
  end.

Definition analyze (opened : OpenResult) : Outcome (list RatingResult) * list Z :=
  match opened with
  | OpenError err => (Failed ("failed to open video: " ++ err)%string, [])
  | Opened video =>
      sampleLoop (defaultFps (VideoCaptureFPS video)) (frames video) 0 initState
  end.

(** [processVideo]: the value and error it returns. *)
Definition processVideo (opened : OpenResult) : Outcome (list RatingResult) :=
  fst (analyze opened).

(** The frames [processVideo] sent to the classifier. *)
Definition classifierCalls (opened : OpenResult) : list Z :=
  snd (analyze opened).

(** ** The rating scale: [getRatingValue] *)

Definition getRatingValue (rating : string) : Z :=
  if String.eqb rating "6+" then 6
  else if String.eqb rating "12+" then 12
  else if String.eqb rating "16+" then 16
  else if String.eqb rating "18+" then 18
  else 0.

(** ** The editor: per-frame decisions *)

Inductive Decision := Keep | Transform | Drop.

(** The membership test of the blur loop, line 496. *)
Definition inBlurRange (timestamp : float) (rating : RatingResult) : bool :=
  PrimFloat.leb (Start rating) timestamp && PrimFloat.leb timestamp (End_ rating).

(** Lines 493-503: the value of [shouldBlur] after the scan. *)
Fixpoint shouldBlur (timestamp : float) (ratings : list RatingResult) (age : Z) : bool :=
  match ratings with
  | [] => false
  | rating :: rest =>
      if inBlurRange timestamp rating then
        if age <? getRatingValue (Rating rating) then true
        else shouldBlur timestamp rest age
      else shouldBlur timestamp rest age
  end.

(** Lines 505-510: a frame is written blurred or as it is. *)
Definition blurDecision (timestamp : float) (ratings : list RatingResult) (age : Z) : Decision :=
  if shouldBlur timestamp ratings age then Transform else Keep.

(** [const epsilon = 0.001]. *)
Definition epsilon : float := 0.001%float.

(** The membership test of the trim loop, lines 546-549. *)
Definition inTrimRange (timestamp : float) (rating : RatingResult) : bool :=
  let isAfterStart := PrimFloat.leb (Start rating - epsilon)%float timestamp in
  let isBeforeEnd := PrimFloat.leb timestamp (End_ rating + epsilon)%float in
  isAfterStart && isBeforeEnd.

(** Lines 538-564: [(shouldInclude, inRatedSegment)] after the scan; both
    branches of the rating test leave the loop. *)
Fixpoint trimScan (timestamp : float) (ratings : list RatingResult) (age : Z) : bool * bool :=
  match ratings with
  | [] => (false, false)
  | rating :: rest =>
      if inTrimRange timestamp rating then
        if getRatingValue (Rating rating) <=? age then (true, true)
        else (false, true)
      else trimScan timestamp rest age
  end.

(** Lines 538-570: [shouldInclude] once the unrated default is applied. *)
Definition shouldInclude (timestamp : float) (ratings : list RatingResult) (age : Z) : bool :=
  let (include, inRatedSegment) := trimScan timestamp ratings age in
  if negb inRatedSegment then false else include.

(** The comparison given to [sort.Slice]: [ratings[i].Start < ratings[j].Start]. *)
Definition startLess (a b : RatingResult) : Prop :=
  PrimFloat.ltb (Start a) (Start b) = true.

(** The arrangement [sort.Slice] is asked for: no later element is less
    than an earlier one. *)
Definition startNotAfter (a b : RatingResult) : Prop := ~ startLess b a.

#[export] Instance startNotAfter_dec : RelDecision startNotAfter.
Proof. intros a b. unfold startNotAfter, startLess. apply _. Defined.

(** Lines 527-530. [sort.Slice] is not stable, so the order of segments
    with equal starts is not fixed by Go; the merge sort is one admissible
    outcome, and need not be the one Go leaves. What is stated of the scan
    order is stated of every arrangement of the segments (see
    [trimDecisionOn]). *)
Definition sortByStart (ratings : list RatingResult) : list RatingResult :=
  merge_sort startNotAfter ratings.

(** Lines 538-580 on the segments in the order [sorted] in which
    [sort.Slice] left them: a frame is written or left out. *)
Definition trimDecisionOn (sorted : list RatingResult) (timestamp : float)
    (age : Z) : Decision :=
  if shouldInclude timestamp sorted age then Keep else Drop.

(** Lines 577-580: a frame is written or left out. *)
Definition trimDecision (timestamp : float) (ratings : list RatingResult) (age : Z) : Decision :=
  if shouldInclude timestamp (sortByStart ratings) age then Keep else Drop.

(** ** The editor: the frame loops *)

(** What the writer receives for a frame of the input. *)
Inductive Written :=
| Unmodified (frameIndex : Z)
| Blurred (frameIndex : Z).

(** [blurInappropriateContent], lines 486-515: the frames written, in order. *)
Fixpoint blurLoop (frames : list Frame) (frameIndex : Z)
    (ratings : list RatingResult) (age : Z) (fps : float) (totalFrames : Z)
    : list Written :=
  match frames with
  | [] => []
  | _ :: rest =>
      if totalFrames <=? frameIndex then []
      else
        let timestamp := (F.of_int frameIndex / fps)%float in
        (if shouldBlur timestamp ratings age
         then Blurred frameIndex else Unmodified frameIndex)
          :: blurLoop rest (frameIndex + 1) ratings age fps totalFrames
  end.

Definition blurInappropriateContent (frames : list Frame)
    (ratings : list RatingResult) (age : Z) (fps : float) (totalFrames : Z)
    : Outcome (list Written) :=
  Returned (blurLoop frames 0 ratings age fps totalFrames).

(** Lines 532-583 of [trimInappropriateContent], over the sorted segments.
    The once-per-second log line evaluates [frameIndex % int(fps)] for every
    frame, before the frame is written. *)
Fixpoint trimLoop (frames : list Frame) (frameIndex : Z)
    (sorted : list RatingResult) (age : Z) (fps : float) (totalFrames : Z)
    : Outcome (list Written) :=
  match frames with
  | [] => Returned []
  | _ :: rest =>
      if totalFrames <=? frameIndex then Returned []
      else
        let timestamp := (F.of_int frameIndex / fps)%float in
        let include := shouldInclude timestamp sorted age in
        match F.to_int fps with
        | None => Unportable
        | Some 0 => Panicked
        | Some _ =>
            match trimLoop rest (frameIndex + 1) sorted age fps totalFrames with
            | Returned written =>
                Returned (if include then Unmodified frameIndex :: written
                          else written)
            | other => other
            end
        end
  end.

Definition trimInappropriateContent (frames : list Frame)
    (ratings : list RatingResult) (age : Z) (fps : float) (totalFrames : Z)
    : Outcome (list Written) :=
  trimLoop frames 0 (sortByStart ratings) age fps totalFrames.

(** [processVideoByAge]; [writerError] is the error of
    [gocv.VideoWriterFile], if any. *)
Definition processVideoByAge (opened : OpenResult) (writerError : option string)
    (age : Z) (ratings : list RatingResult) (videoType : string)
    : Outcome (list Written) :=
  match opened with
  | OpenError err => Failed ("failed to open video: " ++ err)%string
  | Opened video =>
      let fps := defaultFps (VideoCaptureFPS video) in
      match F.to_int (VideoCaptureFrameCount video) with
      | None => Unportable
      | Some totalFrames =>
          match writerError with
          | Some err => Failed ("failed to create video writer: " ++ err)%string
          | None =>
              if String.eqb videoType "blur"
              then blurInappropriateContent (frames video) ratings age fps totalFrames
              else trimInappropriateContent (frames video) ratings age fps totalFrames
          end
      end
  end.

(** ** The convert request: [convertVideo] *)

(** [strconv.Atoi]: an optional sign and decimal digits, within [int]. *)
Definition is_digit (c : ascii) : bool :=
  let n := N_of_ascii c in ((48 <=? n) && (n <=? 57))%N.

Fixpoint digitsValue (s : string) (acc : Z) : option Z :=
  match s with
  | EmptyString => Some acc
  | String c rest =>
      if is_digit c
      then digitsValue rest (10 * acc + (Z.of_N (N_of_ascii c) - 48))
      else None
  end.

Definition Atoi (s : string) : option Z :=
  let unsigned (t : string) :=
    match t with
    | EmptyString => None
    | _ => digitsValue t 0
    end in
  let value :=
    match s with
    | String "+"%char rest => unsigned rest
    | String "-"%char rest => option_map Z.opp (unsigned rest)
    | _ => unsigned s
    end in
  match value with
  | Some v => if (- 2 ^ 63 <=? v) && (v <? 2 ^ 63) then Some v else None
  | None => None
  end.

(** A convert request as the handler sees it: the form fields, and what the
    collaborators answer ([json.Unmarshal] on the ratings field,
    [c.SaveUploadedFile], the video opened from the saved file, the writer). *)
Record ConvertRequest := mkConvertRequest {
  age         : string;
  video_type  : string;
  ratingsStr  : string;
  video_path  : option string;
  unmarshal   : string + list RatingResult;
  saveFails   : bool;
  savedVideo  : OpenResult;
  writerError : option string
}.

(** The JSON answer: the HTTP status and the [error] field, if any. *)
Record Response := mkResponse {
  status : Z;
  error  : option string
}.

Definition StatusOK : Z := 200.
Definition StatusBadRequest : Z := 400.
Definition StatusInternalServerError : Z := 500.

(** What the handler does to the outside: storing the upload, running the
    editor on the stored video, removing the upload. *)
Inductive Effect :=
| SaveUploadedFile
| ProcessVideoByAge (run : Outcome (list Written))
| Remove.

Definition reject (code : Z) (msg : string) : Outcome Response * list Effect :=
  (Returned (mkResponse code (Some msg)), []).

(** [convertVideo], lines 326-416: the answer and the effects, in order. *)
Definition convertVideo (req : ConvertRequest) : Outcome Response * list Effect :=
  match video_path req with
  | None => reject StatusBadRequest "No video file provided"
  | Some _ =>
      let parsed : string + list RatingResult :=
        if String.eqb (ratingsStr req) "" then inr [] else unmarshal req in
      match parsed with
      | inl err => reject StatusBadRequest ("Invalid ratings format: " ++ err)%string
      | inr ratings =>
          if String.eqb (age req) "" then
            reject StatusBadRequest "Age is required"
          else if String.eqb (video_type req) "" then
            reject StatusBadRequest "Video type is required"
          else if negb (String.eqb (age req) "6") && negb (String.eqb (age req) "12")
                  && negb (String.eqb (age req) "16") then
            reject StatusBadRequest "Age must be one of: 6, 12, 16"
          else if negb (String.eqb (video_type req) "blur")
                  && negb (String.eqb (video_type req) "trim") then
            reject StatusBadRequest "Video type must be one of: blur, trim"
          else if saveFails req then
            (Returned (mkResponse StatusInternalServerError
                                  (Some "Failed to save video file")),
             [SaveUploadedFile])
          else
            match Atoi (age req) with
            | None =>
                (Returned (mkResponse StatusBadRequest
                                      (Some ("Invalid age format: " ++ age req)%string)),
                 [SaveUploadedFile; Remove])
            | Some ageInt =>
                let run := processVideoByAge (savedVideo req) (writerError req)
                                             ageInt ratings (video_type req) in
                match run with
                | Returned _ =>
                    (Returned (mkResponse StatusOK None),
                     [SaveUploadedFile; ProcessVideoByAge run; Remove])
                | Failed err =>
                    (Returned (mkResponse StatusInternalServerError (Some err)),
                     [SaveUploadedFile; ProcessVideoByAge run; Remove])
                | Panicked => (Panicked, [SaveUploadedFile; ProcessVideoByAge run])
                | Unportable => (Unportable, [SaveUploadedFile; ProcessVideoByAge run])
                end
            end
      end
  end.

(** ** Definitions that follow the specification's words *)

(** The position of a label in the specification's order
    none(0) < 6+ < 12+ < 16+ < 18+; every unknown label is "none". *)
Definition ratingRank (label : string) : nat :=
  if String.eqb label "6+" then 1
  else if String.eqb label "12+" then 2
  else if String.eqb label "16+" then 3
  else if String.eqb label "18+" then 4
  else 0.

(** Scenario A of the specification. *)
Definition scenarioA : list Sample :=
  [mkSample 0 "6+" "kids"; mkSample 1 "6+" "forest"; mkSample 2 "12+" "fight"].

(** The segment of scenarios B and C. *)
Definition scenarioSegment : RatingResult := mkRatingResult 1 2 "16+" "".

(** The membership test in the specification's words: [t >= start - eps]
    and [t <= end + eps]. *)
Definition inSegment (t : float) (s : RatingResult) : Prop :=
  F.le (Start s - epsilon)%float t /\ F.le t (End_ s + epsilon)%float.

(** The closed intervals of the segments cover [[lo, hi]]. *)
Definition covers (segments : list RatingResult) (lo hi : float) : Prop :=
  forall t, F.le lo t -> F.le t hi ->
            exists s, In s segments /\ F.le (Start s) t /\ F.le t (End_ s).

(** The tokens of a notes string in the specification's words: split on
    commas, trimmed of white space, lower-cased, without the empty token
    and the token "none". *)
Definition specTokens (notes : string) : list string :=
  List.filter (fun tok => negb (String.eqb tok "") && negb (String.eqb tok "none"))
              (map (fun tok => Strings.ToLower (Strings.TrimSpace tok))
                   (Strings.Split notes ",")).

(** ** Definitions used in the proofs *)

(** While no segment is open ([lastRating] is empty) the start time and the
    collected notes are never read. Two states are alike when they agree on
    everything that is read later. *)
Definition sameOpen (st st' : MergeState) : Prop :=
  lastRating st = lastRating st' /\
  (lastRating st <> "" ->
   startTime st = startTime st' /\ combinedNotes st = combinedNotes st').

(** A segment with a rating. *)
Definition rated (s : RatingResult) : Prop := Rating s <> "".

(** What holds between a segment and the next one: it starts earlier, it
    ends before the next one starts, and it ends one time unit before the
    timestamp of the sample that closed it, which is where the next segment
    starts unless that sample carried no rating. *)
Definition follows (samples : list Sample) (a b : RatingResult) : Prop :=
  F.lt (Start a) (Start b) /\ F.lt (End_ a) (Start b) /\
  exists s, In s samples /\ End_ a = (timestamp s - 1)%float /\
            (rating s <> "" -> Start b = timestamp s).

(** Segment [a] lies wholly before segment [b]. *)
Definition before (a b : RatingResult) : Prop :=
  F.lt (Start a) (Start b) /\ F.lt (End_ a) (Start b).

(** What is known of the last emitted segment [z] in state [st]. *)
Definition pending (all : list Sample) (st : MergeState) (z : RatingResult) : Prop :=
  exists s, In s all /\ End_ z = (timestamp s - 1)%float /\
    F.lt (Start z) (timestamp s) /\
    (timestamp s = startTime st \/ F.lt (timestamp s) (startTime st)) /\
    (rating s <> "" -> timestamp s = startTime st /\ lastRating st <> "").

(** The invariant of the sampling loop, with the samples still to come. *)
Definition Inv (all : list Sample) (st : MergeState) (rest : list Sample) : Prop :=
  Sorted (follows all) (results st) /\
  (forall z, last (results st) = Some z -> pending all st z) /\
  (lastRating st <> "" \/ results st <> [] ->
   forall s, In s rest -> F.lt (startTime st) (timestamp s)).

(** The samples the frame loop hands to the merger: the frames whose index
    is a multiple of the sampling step, that encode, and that the
    classifier rates. *)
Fixpoint classifiedSamples (fps : float) (step : Z) (frames : list Frame)
    (frameIndex : Z) : list Sample :=
  match frames with
  | [] => []
  | f :: rest =>
      let later := classifiedSamples fps step rest (frameIndex + 1) in
      if (Z.rem frameIndex step =? 0) && encodes f then
        match verdict f with
        | Classified r n => mkSample (F.of_int frameIndex / fps)%float r n :: later
        | ClassifierError _ => later
        end
      else later
  end.

(** The classifier answers for the frame. *)
Definition classifies (f : Frame) : Prop :=
  forall err, verdict f <> ClassifierError err.

(** ** The upload request: [uploadVideo], lines 88-109 *)

(** An upload request as the handler sees it: the form file, and what
    [c.SaveUploadedFile] and the opening of the stored file answer. *)
Record UploadRequest := mkUploadRequest {
  upload_file      : option string;
  upload_saveFails : bool;
  upload_stored    : OpenResult
}.

(** The JSON answer of [uploadVideo]: the status, the [error] field or the
    [ratings] field. *)
Record UploadResponse := mkUploadResponse {
  upload_status  : Z;
  upload_error   : option string;
  upload_ratings : option (list RatingResult)
}.

(** [uploadVideo]: the answer and the effects on the upload store, in order.
    The error return of [processVideo] leaves the handler before
    [os.Remove]. *)
Definition uploadVideo (req : UploadRequest) : Outcome UploadResponse * list Effect :=
  match upload_file req with
  | None =>
      (Returned (mkUploadResponse StatusBadRequest (Some "No video file provided") None), [])
  | Some _ =>
      if upload_saveFails req then
        (Returned (mkUploadResponse StatusInternalServerError
                                    (Some "Failed to save video file") None),
         [SaveUploadedFile])
      else
        match processVideo (upload_stored req) with
        | Returned ratings =>
            (Returned (mkUploadResponse StatusOK None (Some ratings)),
             [SaveUploadedFile; Remove])
        | Failed err =>
            (Returned (mkUploadResponse StatusInternalServerError (Some err) None),
             [SaveUploadedFile])
        | Panicked => (Panicked, [SaveUploadedFile])
        | Unportable => (Unportable, [SaveUploadedFile])
        end
  end.

(** ** The classifier's reply: [analyzeFrameWithOpenAI], lines 302-323 *)

Module Reply.

(** [strings.Index(s, sep)] for a one-byte [sep]: the index of its first
    occurrence, or -1. *)
Fixpoint Index (s : string) (sep : ascii) : Z :=
  match s with
  | EmptyString => -1
  | String c rest =>
      if Ascii.eqb c sep then 0
      else let i := Index rest sep in
           if i <? 0 then -1 else i + 1
  end.

(** [s[n:]]. *)
Fixpoint from (s : string) (n : nat) : string :=
  match n, s with
  | O, _ => s
  | S n', String _ rest => from rest n'
  | S _, EmptyString => EmptyString
  end.

(** [strings.HasSuffix]: [len(s) >= len(suffix) &&
    s[len(s)-len(suffix):] == suffix]. *)
Definition HasSuffix (s suffix : string) : bool :=
  (String.length suffix <=? String.length s)%nat
  && String.eqb (from s (String.length s - String.length suffix)) suffix.

(** [strings.TrimSuffix]: [s[:len(s)-len(suffix)]] when [s] has the
    suffix, [s] otherwise. *)
Definition TrimSuffix (s suffix : string) : string :=
  if HasSuffix s suffix
  then String.substring 0 (String.length s - String.length suffix) s
  else s.

(** Lines 309-316: the text handed to [json.Unmarshal], or [None] when the
    content has no opening brace. The text begins with the brace, so only
    the right end is trimmed; with [Strings.TrimSpace] this is Go's result
    when the last byte that is not ASCII white space is an ASCII byte. *)
Definition jsonText (content : string) : option string :=
  let jsonStart := Index content "{" in
  if jsonStart =? -1 then None
  else
    let text := from content (Z.to_nat jsonStart) in
    let text := Strings.TrimSpace text in
    Some (TrimSuffix text "```").

(** Lines 302-323, after the HTTP exchange: [choices] are the message
    contents of the decoded response, [unmarshal] is [json.Unmarshal] into
    [RatingData], giving the error text or the [rating] and [notes]
    fields. *)
Definition classify (choices : list string)
    (unmarshal : string -> string + string * string) : Verdict :=
  match choices with
  | [] => ClassifierError "no choices in response"
  | content :: _ =>
      match jsonText content with
      | None => ClassifierError "no JSON object found in response"
      | Some text =>
          match unmarshal text with
          | inl err => ClassifierError ("failed to parse rating data: " ++ err)%string
          | inr (r, n) => Classified r n
          end
      end
  end.

End Reply.

(** ** The client: [VideoUploader.tsx], lines 83-102 and 131-144 *)

Module Client.

(** [ratingValues[key]]: the number of one of the four labels. Any other
    key gives [undefined] or an inherited member of the object, and every
    [>] comparison with such a value is false: [None]. *)
Definition ratingValues (key : string) : option Z :=
  if String.eqb key "6+" then Some 6
  else if String.eqb key "12+" then Some 12
  else if String.eqb key "16+" then Some 16
  else if String.eqb key "18+" then Some 18
  else None.

(** [a > b] on the values of [ratingValues]. *)
Definition greater (a b : option Z) : bool :=
  match a, b with
  | Some x, Some y => y <? x
  | _, _ => false
  end.

(** [getHighestRating]: [null] without ratings, else the label left in
    [highestRating] by the [forEach]. *)
Definition getHighestRating (ratings : list RatingResult) : option string :=
  match ratings with
  | [] => None
  | _ =>
      Some (fold_left
              (fun highestRating rating =>
                 if greater (ratingValues (Rating rating)) (ratingValues highestRating)
                 then Rating rating else highestRating)
              ratings "6+")
  end.

(** [getConversionOptions]: the [switch] on the highest rating. *)
Definition getConversionOptions (ratings : list RatingResult) : list string :=
  match getHighestRating ratings with
  | Some highestRating =>
      if String.eqb highestRating "18+" then ["6+"; "12+"; "16+"]
      else if String.eqb highestRating "16+" then ["6+"; "12+"]
      else if String.eqb highestRating "12+" then ["6+"]
      else []
  | None => []
  end.

End Client.

(** ** Further definitions used in the proofs *)

(** The number of samples that close a segment: those whose rating differs
    from the rating before them, when that one is not empty. [prev] is the
    rating before the first sample. *)
Fixpoint closings (prev : string) (samples : list Sample) : nat :=
  match samples with
  | [] => O
  | s :: rest =>
      (if String.eqb (rating s) prev || String.eqb prev "" then O else 1%nat)
      + closings (rating s) rest
  end.

(** The frame a written entry comes from. *)
Definition writtenIndex (w : Written) : Z :=
  match w with
  | Unmodified k => k
  | Blurred k => k
  end.

(** A byte string without comma. *)
Fixpoint noComma (s : string) : Prop :=
  match s with
  | EmptyString => True
  | String c rest => c <> ","%char /\ noComma rest
  end.

(** The normal form of a note: what [addNote] stores. *)
Definition normalNote (note : string) : string :=
  Strings.TrimSpace (Strings.ToLower note).

(** A token as the merger stores it: not empty, not "none", without comma,
    and in normal form. *)
Definition cleanToken (tok : string) : Prop :=
  tok <> "" /\ tok <> "none" /\ noComma tok /\ normalNote tok = tok.

(** White space only. *)
Fixpoint allSpace (s : string) : Prop :=
  match s with
  | EmptyString => True
  | String c rest => Strings.is_space c = true /\ allSpace rest
  end.

(** The last byte, if any, is an ASCII byte that is not white space: the
    right end of such a string is not trimmed, by the model and by Go. *)
Fixpoint endsVisible (s : string) : Prop :=
  match s with
  | EmptyString => True
  | String c EmptyString =>
      Strings.is_space c = false /\ (N_of_ascii c < 128)%N
  | String _ rest => endsVisible rest
  end.

(** A string of ASCII bytes. On such strings [Strings.ToLower] and
    [Strings.TrimSpace] are Go's functions. *)
Fixpoint asciiOnly (s : string) : Prop :=
  match s with
  | EmptyString => True
  | String c rest => (N_of_ascii c < 128)%N /\ asciiOnly rest
  end.

(** [s] is the first segment of [sorted] that contains the frame time [t]
    within the tolerance. *)
Definition firstContaining (t : float) (sorted : list RatingResult)
    (s : RatingResult) : Prop :=
  exists pre post, sorted = pre ++ s :: post /\
                   (forall p, In p pre -> ~ inSegment t p) /\ inSegment t s.

(** Two overlapping segments, and two segments that only the tolerance
    makes overlap. *)
Definition overlapping : list RatingResult :=
  [mkRatingResult 0 10 "18+" ""; mkRatingResult 5 15 "6+" ""].

Definition adjacent : list RatingResult :=
  [mkRatingResult 0 1 "18+" ""; mkRatingResult 1.0005 2 "6+" ""].

(** ** The merger with the library's normalisation as a parameter *)

(** [strings.TrimSpace(strings.ToLower(note))] is Go's library: it decodes
    UTF-8, lower-cases by the Unicode tables and trims the Unicode white
    space. The definitions below are lines 161-214 once more, with the
    composition of the two library calls as the parameter [norm];
    [strings.Split], the map, [sort.Strings] and [strings.Join] work on
    bytes and are as above. What is proved of them for every [norm] holds
    of the code whatever the library does beyond ASCII. With [normalNote]
    for [norm] they are [mergeStep], [mergeSamples] and [merge]. *)
Definition addNoteWith (norm : string -> string) (acc : gset string)
    (note : string) : gset string :=
  let note := norm note in
  if negb (String.eqb note "") && negb (String.eqb note "none")
  then {[ note ]} ∪ acc else acc.

Definition addNotesWith (norm : string -> string) (acc : gset string)
    (notes : string) : gset string :=
  fold_left (addNoteWith norm) (Strings.Split notes ",") acc.

Definition mergeStepWith (norm : string -> string) (st : MergeState)
    (timestamp : float) (rating notes : string) : MergeState :=
  if String.eqb rating (lastRating st) then
    mkMergeState (results st) (lastRating st) (startTime st)
                 (addNotesWith norm (combinedNotes st) notes)
  else
    mkMergeState (emitOpen st (timestamp - 1)%float) rating timestamp
                 (addNotesWith norm ∅ notes).

Definition mergeSamplesWith (norm : string -> string) (st : MergeState)
    (samples : list Sample) : MergeState :=
  fold_left (fun st s => mergeStepWith norm st (timestamp s) (rating s) (notes s))
            samples st.

Definition mergeWith (norm : string -> string) (samples : list Sample)
    (totalDuration : float) : list RatingResult :=
  emitOpen (mergeSamplesWith norm initState samples) totalDuration.

(** The tokens of a notes string in the specification's words: split on
    commas, each piece trimmed and lower-cased by the library ([norm]),
    without the empty token and the token "none". *)
Definition tokensWith (norm : string -> string) (notes : string) : list string :=
  List.filter (fun tok => negb (String.eqb tok "") && negb (String.eqb tok "none"))
              (map norm (Strings.Split notes ",")).

(** The union of the tokens over a run of samples. *)
Fixpoint runTokensWith (norm : string -> string) (run : list Sample) : gset string :=
  match run with
  | [] => ∅
  | s :: rest => list_to_set (tokensWith norm (notes s)) ∪ runTokensWith norm rest
  end.

(** * Properties *)

(** ** The rating scale *)

Lemma eqb_false_of_ne (a b : string) : a <> b -> String.eqb a b = false.
Proof. intros H. apply String.eqb_neq. exact H. Qed.

(** C8. [getRatingValue] sends "6+", "12+", "16+", "18+" to 6, 12, 16, 18
    and every other string, the empty one included, to 0; it is strictly
    monotone, hence monotone, for the order none < 6+ < 12+ < 16+ < 18+. *)
Theorem getRatingValue_scale :
  getRatingValue "6+" = 6 /\ getRatingValue "12+" = 12 /\
  getRatingValue "16+" = 16 /\ getRatingValue "18+" = 18 /\
  getRatingValue "" = 0 /\
  (forall label, label <> "6+" -> label <> "12+" -> label <> "16+" ->
                 label <> "18+" -> getRatingValue label = 0) /\
  (forall a b, (ratingRank a < ratingRank b)%nat ->
               getRatingValue a < getRatingValue b) /\
  (forall a b, (ratingRank a <= ratingRank b)%nat ->
               getRatingValue a <= getRatingValue b).
Proof.
  repeat split; try reflexivity.
  - intros label H6 H12 H16 H18. unfold getRatingValue.
    now rewrite !eqb_false_of_ne.
  - intros a b. unfold ratingRank, getRatingValue.
    repeat match goal with |- context [String.eqb ?x ?y] => destruct (String.eqb x y) end;
      lia.
  - intros a b. unfold ratingRank, getRatingValue.
    repeat match goal with |- context [String.eqb ?x ?y] => destruct (String.eqb x y) end;
      lia.
Qed.

Lemma getRatingValue_scale_witness :
  getRatingValue "PG" = 0 /\ getRatingValue "12+" < getRatingValue "16+".
Proof.
  destruct getRatingValue_scale as (_ & _ & _ & _ & _ & Hother & Hlt & _).
  split.
  - apply Hother; discriminate.
  - apply Hlt. vm_compute. lia.
Defined.

(** ** The blur decision *)

Lemma shouldBlur_true_iff (t : float) (ratings : list RatingResult) (age : Z) :
  shouldBlur t ratings age = true <->
  exists s, In s ratings /\ inBlurRange t s = true /\ age < getRatingValue (Rating s).
Proof.
  induction ratings as [|r rest IH]; simpl.
  - split; [discriminate | intros (s & [] & _)].
  - destruct (inBlurRange t r) eqn:Hin.
    + destruct (age <? getRatingValue (Rating r)) eqn:Hage.
      * split; [intros _ | reflexivity].
        exists r. apply Z.ltb_lt in Hage. auto.
      * rewrite IH. apply Z.ltb_ge in Hage.
        split; intros (s & Hs & Hrange & Hval).
        -- exists s. auto.
        -- destruct Hs as [<- | Hs]; [lia | exists s; auto].
    + rewrite IH. split; intros (s & Hs & Hrange & Hval).
      * exists s. auto.
      * destruct Hs as [<- | Hs]; [congruence | exists s; auto].
Qed.

Lemma inBlurRange_iff (t : float) (s : RatingResult) :
  inBlurRange t s = true <-> F.le (Start s) t /\ F.le t (End_ s).
Proof. unfold inBlurRange, F.le. apply andb_true_iff. Qed.

(** C5. The blur loop transforms a frame exactly when its time lies in the
    closed interval [Start, End] of some segment rated above the target
    age, and keeps it otherwise; a frame at 1.5 in the segment [1, 2] rated
    16+ is transformed at age 12 and a frame at 5, in no segment, is kept
    (scenario C). The interval is taken without the tolerance of the
    membership test: frame 4001 at 2000 frames per second, at 2.0005 s,
    falls within 0.001 of the segment [1, 2] rated 16+, above the target
    age 12, and the loop keeps it. *)
Theorem blur_decision_without_tolerance :
  (forall t ratings age,
     blurDecision t ratings age = Transform <->
     exists s, In s ratings /\ F.le (Start s) t /\ F.le t (End_ s) /\
               age < getRatingValue (Rating s)) /\
  (forall t ratings age,
     blurDecision t ratings age = Keep <->
     ~ exists s, In s ratings /\ F.le (Start s) t /\ F.le t (End_ s) /\
                 age < getRatingValue (Rating s)) /\
  (forall t ratings age,
     (forall s, In s ratings -> ~ (F.le (Start s) t /\ F.le t (End_ s))) ->
     blurDecision t ratings age = Keep) /\
  blurDecision 1.5 [scenarioSegment] 12 = Transform /\
  blurDecision 5 [scenarioSegment] 12 = Keep /\
  let t := (F.of_int 4001 / 2000)%float in
  In scenarioSegment [scenarioSegment] /\
  inSegment t scenarioSegment /\
  12 < getRatingValue (Rating scenarioSegment) /\
  blurDecision t [scenarioSegment] 12 = Keep.
Proof.
  assert (Hiff : forall t ratings age,
            shouldBlur t ratings age = true <->
            exists s, In s ratings /\ F.le (Start s) t /\ F.le t (End_ s) /\
                      age < getRatingValue (Rating s)).
  { intros t ratings age. rewrite shouldBlur_true_iff.
    split; intros (s & Hs & H); exists s; split; auto.
    - destruct H as [H Hv]. apply inBlurRange_iff in H. tauto.
    - destruct H as (H1 & H2 & Hv). split; [apply inBlurRange_iff|]; auto. }
  split; [|split; [|split]].
  - intros t ratings age. unfold blurDecision. rewrite <- Hiff.
    destruct (shouldBlur t ratings age); split; congruence.
  - intros t ratings age. unfold blurDecision. rewrite <- Hiff.
    destruct (shouldBlur t ratings age); split; congruence.
  - intros t ratings age Hno. unfold blurDecision.
    destruct (shouldBlur t ratings age) eqn:Hb; [|reflexivity].
    destruct (proj1 (Hiff t ratings age) Hb) as (s & Hs & H1 & H2 & _).
    exfalso. apply (Hno s Hs). auto.
  - split; [vm_compute; reflexivity|]. split; [vm_compute; reflexivity|].
    intros t. split; [now left|].
    split; [split; vm_compute; reflexivity|].
    split; vm_compute; reflexivity.
Qed.

(** ** The trim decision *)


Lemma inTrimRange_iff (t : float) (s : RatingResult) :
  inTrimRange t s = true <-> inSegment t s.
Proof. unfold inTrimRange, inSegment, F.le. apply andb_true_iff. Qed.

(** The scan stops at the first segment that contains the frame. *)
Lemma shouldInclude_first_match (t : float) (sorted : list RatingResult) (age : Z) :
  shouldInclude t sorted age =
  match List.find (inTrimRange t) sorted with
  | Some s => getRatingValue (Rating s) <=? age
  | None => false
  end.
Proof.
  unfold shouldInclude.
  induction sorted as [|r rest IH]; simpl; [reflexivity|].
  destruct (inTrimRange t r); [|exact IH].
  now destruct (getRatingValue (Rating r) <=? age).
Qed.

Lemma sortByStart_In (ratings : list RatingResult) (s : RatingResult) :
  In s (sortByStart ratings) <-> In s ratings.
Proof.
  unfold sortByStart. rewrite <- !list_elem_of_In.
  now rewrite merge_sort_Permutation.
Qed.

Lemma SFltb_asym (a b : spec_float) : SFltb a b = true -> SFltb b a = false.
Proof.
  unfold SFltb, SFcompare.
  destruct a as [sa | sa | | sa ma ea], b as [sb | sb | | sb mb eb];
    repeat match goal with s : bool |- _ => destruct s end;
    try discriminate; try reflexivity.
  all: destruct (Z.compare_spec ea eb), (Z.compare_spec eb ea);
    try discriminate; try reflexivity; try lia; subst.
  all: rewrite ?Pos.compare_cont_spec; simpl;
    destruct (Pos.compare_spec ma mb), (Pos.compare_spec mb ma);
    simpl; try discriminate; try reflexivity; try lia.
Qed.

(** Of two segments one does not start before the other. *)
Lemma startNotAfter_total : Total startNotAfter.
Proof.
  intros a b. unfold startNotAfter, startLess.
  destruct (PrimFloat.ltb (Start b) (Start a)) eqn:Hba; [|left; congruence].
  right. rewrite ltb_spec in *. rewrite (SFltb_asym _ _ Hba). discriminate.
Qed.

Lemma sortByStart_sorted (ratings : list RatingResult) :
  sortByStart ratings ≡ₚ ratings /\ Sorted startNotAfter (sortByStart ratings).
Proof.
  unfold sortByStart. split; [apply merge_sort_Permutation|].
  apply Sorted_merge_sort. apply startNotAfter_total.
Qed.

(** The scan finds the first segment that contains the frame. *)
Lemma find_firstContaining (t : float) (sorted : list RatingResult) :
  match List.find (inTrimRange t) sorted with
  | Some s => firstContaining t sorted s
  | None => forall s, In s sorted -> ~ inSegment t s
  end.
Proof.
  induction sorted as [|r rest IH]; simpl; [intros s []|].
  destruct (inTrimRange t r) eqn:Hr.
  - exists [], rest. split; [reflexivity|]. split; [intros p []|].
    now apply inTrimRange_iff.
  - destruct (List.find (inTrimRange t) rest) as [s|].
    + destruct IH as (pre & post & -> & Hpre & Hs).
      exists (r :: pre), post. split; [reflexivity|]. split; [|exact Hs].
      intros p [<- | Hp]; [|now apply Hpre].
      intros Hin. apply inTrimRange_iff in Hin. congruence.
    + intros s [<- | Hs]; [|now apply IH].
      intros Hin. apply inTrimRange_iff in Hin. congruence.
Qed.

Lemma firstContaining_find (t : float) (sorted : list RatingResult)
    (s : RatingResult) :
  firstContaining t sorted s -> List.find (inTrimRange t) sorted = Some s.
Proof.
  intros (pre & post & -> & Hpre & Hs).
  induction pre as [|p pre IH]; simpl.
  - now rewrite (proj2 (inTrimRange_iff t s) Hs).
  - destruct (inTrimRange t p) eqn:Hp.
    + exfalso. apply (Hpre p); [now left | now apply inTrimRange_iff].
    + apply IH. intros q Hq. apply Hpre. now right.
Qed.

Lemma firstContaining_In (t : float) (sorted : list RatingResult)
    (s : RatingResult) :
  firstContaining t sorted s -> In s sorted /\ inSegment t s.
Proof.
  intros (pre & post & -> & _ & Hs). split; [|exact Hs].
  apply in_or_app. right. now left.
Qed.

Lemma trimDecisionOn_first (sorted : list RatingResult) (t : float) (age : Z) :
  trimDecisionOn sorted t age =
  match List.find (inTrimRange t) sorted with
  | Some s => if getRatingValue (Rating s) <=? age then Keep else Drop
  | None => Drop
  end.
Proof.
  unfold trimDecisionOn. rewrite shouldInclude_first_match.
  now destruct (List.find _ _).
Qed.

(** C6, as the code has it. In trim mode a frame that falls in no segment
    is dropped. Otherwise the first segment that contains the frame, in the
    order in which [sort.Slice] left the segments, decides: the frame is
    kept when that segment is rated at most the target age and dropped when
    it is rated above (scenario B). The frame is then kept exactly when it
    falls in a segment rated at most the target age provided the segments
    that contain it agree on the side of the target age, as they do when
    only one contains it. [sorted] is any arrangement of the segments, so
    the statement does not depend on the order [sort.Slice] leaves among
    equal starts; [sortByStart] gives one arrangement in ascending start
    order. *)
Theorem trim_first_segment_decides (t : float) (ratings sorted : list RatingResult)
    (age : Z) :
  sorted ≡ₚ ratings ->
  ((forall s, In s ratings -> ~ inSegment t s) ->
   trimDecisionOn sorted t age = Drop) /\
  (forall s, firstContaining t sorted s ->
     In s ratings /\
     (getRatingValue (Rating s) <= age -> trimDecisionOn sorted t age = Keep) /\
     (age < getRatingValue (Rating s) -> trimDecisionOn sorted t age = Drop)) /\
  (trimDecisionOn sorted t age = Keep ->
   exists s, firstContaining t sorted s /\ getRatingValue (Rating s) <= age) /\
  (trimDecisionOn sorted t age = Drop ->
   (forall s, In s ratings -> ~ inSegment t s) \/
   exists s, firstContaining t sorted s /\ age < getRatingValue (Rating s)) /\
  ((forall s1 s2, In s1 ratings -> In s2 ratings ->
                  inSegment t s1 -> inSegment t s2 ->
                  (getRatingValue (Rating s1) <= age <->
                   getRatingValue (Rating s2) <= age)) ->
   (trimDecisionOn sorted t age = Keep <->
    exists s, In s ratings /\ inSegment t s /\ getRatingValue (Rating s) <= age) /\
   ((exists s, In s ratings /\ inSegment t s /\ age < getRatingValue (Rating s)) ->
    trimDecisionOn sorted t age = Drop)) /\
  (trimDecisionOn sorted t age = Keep \/ trimDecisionOn sorted t age = Drop) /\
  trimDecision t ratings age = trimDecisionOn (sortByStart ratings) t age /\
  sortByStart ratings ≡ₚ ratings /\
  Sorted startNotAfter (sortByStart ratings) /\
  trimDecision 1.5 [scenarioSegment] 12 = Drop /\
  trimDecision 5 [scenarioSegment] 12 = Drop.
Proof.
  intros Hperm.
  assert (HIn : forall s, In s sorted <-> In s ratings).
  { intros s. rewrite <- !list_elem_of_In. now rewrite Hperm. }
  pose proof (trimDecisionOn_first sorted t age) as Hfirst.
  pose proof (find_firstContaining t sorted) as Hfind.
  assert (Hno : (forall s, In s ratings -> ~ inSegment t s) ->
                trimDecisionOn sorted t age = Drop).
  { intros Hnone. rewrite Hfirst.
    destruct (List.find (inTrimRange t) sorted) as [s|]; [|reflexivity].
    destruct (firstContaining_In _ _ _ Hfind) as [Hs Hin].
    exfalso. apply (Hnone s); [now apply HIn | exact Hin]. }
  assert (Hdecides : forall s, firstContaining t sorted s ->
     In s ratings /\
     (getRatingValue (Rating s) <= age -> trimDecisionOn sorted t age = Keep) /\
     (age < getRatingValue (Rating s) -> trimDecisionOn sorted t age = Drop)).
  { intros s Hs. split; [apply HIn; now apply (firstContaining_In t)|].
    rewrite Hfirst, (firstContaining_find _ _ _ Hs).
    split; intros Hv.
    - apply Z.leb_le in Hv. now rewrite Hv.
    - apply Z.leb_gt in Hv. now rewrite Hv. }
  assert (Hkeep : trimDecisionOn sorted t age = Keep ->
     exists s, firstContaining t sorted s /\ getRatingValue (Rating s) <= age).
  { rewrite Hfirst.
    destruct (List.find (inTrimRange t) sorted) as [s|]; [|discriminate].
    destruct (getRatingValue (Rating s) <=? age) eqn:Hv; [|discriminate].
    intros _. exists s. split; [exact Hfind | now apply Z.leb_le]. }
  assert (Hdrop : trimDecisionOn sorted t age = Drop ->
     (forall s, In s ratings -> ~ inSegment t s) \/
     exists s, firstContaining t sorted s /\ age < getRatingValue (Rating s)).
  { rewrite Hfirst.
    destruct (List.find (inTrimRange t) sorted) as [s|].
    - destruct (getRatingValue (Rating s) <=? age) eqn:Hv; [discriminate|].
      intros _. right. exists s. split; [exact Hfind | now apply Z.leb_gt].
    - intros _. left. intros s Hs. apply Hfind. now apply HIn. }
  assert (Hkd : trimDecisionOn sorted t age = Keep \/ trimDecisionOn sorted t age = Drop).
  { unfold trimDecisionOn. destruct (shouldInclude t sorted age); auto. }
  split; [exact Hno|]. split; [exact Hdecides|]. split; [exact Hkeep|].
  split; [exact Hdrop|]. split.
  - intros Hagree.
    assert (Hk : trimDecisionOn sorted t age = Keep <->
                 exists s, In s ratings /\ inSegment t s /\
                           getRatingValue (Rating s) <= age).
    { split.
      - intros HK. destruct (Hkeep HK) as (s & Hs & Hv).
        destruct (firstContaining_In _ _ _ Hs) as [Hin Hseg].
        exists s. split; [now apply HIn | auto].
      - intros (s & Hs & Hseg & Hv).
        destruct Hkd as [HK | HD]; [exact HK|]. exfalso.
        destruct (Hdrop HD) as [Hnone | (s' & Hs' & Hv')].
        + now apply (Hnone s).
        + destruct (firstContaining_In _ _ _ Hs') as [Hin' Hseg'].
          apply HIn in Hin'.
          apply (Hagree s s' Hs Hin' Hseg Hseg') in Hv. lia. }
    split; [exact Hk|].
    intros (s & Hs & Hseg & Hv).
    destruct Hkd as [HK | HD]; [|exact HD]. exfalso.
    apply Hk in HK as (s' & Hs' & Hseg' & Hv').
    apply (Hagree s' s Hs' Hs Hseg' Hseg) in Hv'. lia.
  - split; [exact Hkd|]. split; [reflexivity|].
    destruct (sortByStart_sorted ratings) as [Hp Hsorted].
    split; [exact Hp|]. split; [exact Hsorted|]. split; reflexivity.
Qed.

Lemma trim_first_segment_decides_witness :
  trimDecisionOn [scenarioSegment] 5 12 = Drop /\
  trimDecisionOn overlapping 7 12 = Drop.
Proof.
  split.
  - refine (proj1 (trim_first_segment_decides 5 [scenarioSegment] [scenarioSegment]
                     12 _) _).
    + reflexivity.
    + intros s [<- | []] [_ H]. vm_compute in H. discriminate.
  - refine (proj2 (proj2 (proj1 (proj2 (trim_first_segment_decides 7 overlapping
                     overlapping 12 _)) (mkRatingResult 0 10 "18+" "") _)) _).
    + reflexivity.
    + exists [], [mkRatingResult 5 15 "6+" ""].
      split; [reflexivity|]. split; [intros p []|].
      split; vm_compute; reflexivity.
    + vm_compute. reflexivity.
Defined.

(** C6 as stated fails where two segments contain the frame: at 7 s, in
    the segment [0, 10] rated 18+ and in the segment [5, 15] rated 6+, the
    frame falls in a segment rated at most the target age 12 and is
    dropped, in every arrangement that [sort.Slice] may leave. The
    tolerance makes this happen with segments that do not overlap: at
    1.0007 s the frame lies in [1.0005, 2] rated 6+ and, within 0.001, in
    [0, 1] rated 18+, and is dropped. *)
Lemma overlapping_segments_first_decides :
  trimDecision 7 overlapping 12 = Drop /\
  In (mkRatingResult 5 15 "6+" "") overlapping /\
  inSegment 7 (mkRatingResult 5 15 "6+" "") /\
  getRatingValue (Rating (mkRatingResult 5 15 "6+" "")) <= 12 /\
  (forall sorted, sorted ≡ₚ overlapping -> Sorted startNotAfter sorted ->
                  trimDecisionOn sorted 7 12 = Drop) /\
  trimDecision 1.0007 adjacent 12 = Drop /\
  In (mkRatingResult 1.0005 2 "6+" "") adjacent /\
  inSegment 1.0007 (mkRatingResult 1.0005 2 "6+" "") /\
  F.le 1.0005 1.0007 /\ F.le 1.0007 2 /\
  (forall sorted, sorted ≡ₚ adjacent -> Sorted startNotAfter sorted ->
                  trimDecisionOn sorted 1.0007 12 = Drop).
Proof.
  assert (Htwo : forall (a b : RatingResult) sorted,
            sorted ≡ₚ [a; b] -> sorted = [a; b] \/ sorted = [b; a]).
  { intros a b sorted Hp. symmetry in Hp.
    apply Permutation_length_2_inv in Hp. tauto. }
  split; [vm_compute; reflexivity|].
  split; [right; now left|].
  split; [split; vm_compute; reflexivity|].
  split; [vm_compute; discriminate|].
  split.
  { intros sorted Hp Hs. destruct (Htwo _ _ _ Hp) as [-> | ->].
    - vm_compute. reflexivity.
    - exfalso. inversion Hs as [|? ? _ Hhd]; subst.
      inversion Hhd as [|? ? Hrel]; subst. apply Hrel. vm_compute. reflexivity. }
  split; [vm_compute; reflexivity|].
  split; [right; now left|].
  split; [split; vm_compute; reflexivity|].
  split; [vm_compute; reflexivity|].
  split; [vm_compute; reflexivity|].
  intros sorted Hp Hs. destruct (Htwo _ _ _ Hp) as [-> | ->].
  - vm_compute. reflexivity.
  - exfalso. inversion Hs as [|? ? _ Hhd]; subst.
    inversion Hhd as [|? ? Hrel]; subst. apply Hrel. vm_compute. reflexivity.
Qed.

(** ** The tolerance of the membership test *)

(** C2. The trim loop treats a frame as inside a segment exactly when
    [t >= start - eps] and [t <= end + eps] with [eps = 0.001], so a frame
    at [end + 0.0005] is inside and one at [end + 0.002] is not. The blur
    loop compares with [Start] and [End] themselves: frame 4001 of a video
    at 2000 frames per second, at 2.0005 s, is within the tolerance of the
    segment [1, 2] rated 16+ (trim at age 12 drops it) and yet blur at age
    12 writes it unblurred. *)
Theorem tolerance_in_trim_not_in_blur :
  (forall t s, inTrimRange t s = true <-> inSegment t s) /\
  epsilon = 0.001%float /\
  inTrimRange (2 + 0.0005) scenarioSegment = true /\
  inTrimRange (2 + 0.002) scenarioSegment = false /\
  let t := (F.of_int 4001 / 2000)%float in
  inSegment t scenarioSegment /\
  trimDecision t [scenarioSegment] 12 = Drop /\
  inBlurRange t scenarioSegment = false /\
  blurDecision t [scenarioSegment] 12 = Keep /\
  blurLoop (repeat (mkFrame true (Classified "" "")) 4002) 0
           [scenarioSegment] 12 2000 4002 !! 4001%nat = Some (Unmodified 4001).
Proof.
  split; [exact inTrimRange_iff|].
  repeat split; vm_compute; reflexivity.
Qed.

(** ** Validation of the convert request *)

(** C9. A convert request whose age is not "6", "12" or "16", or whose
    video type is not "blur" or "trim", is answered with status 400 and
    has no effect at all: the upload is not stored and the editor is not
    run, so no frame is read or written. *)
Theorem convertVideo_rejects_invalid_policy (req : ConvertRequest) :
  (age req <> "6" /\ age req <> "12" /\ age req <> "16") \/
  (video_type req <> "blur" /\ video_type req <> "trim") ->
  exists msg,
    convertVideo req = (Returned (mkResponse StatusBadRequest (Some msg)), []).
Proof.
  intros Hbad. unfold convertVideo, reject.
  destruct (video_path req); [|eauto].
  destruct (if String.eqb (ratingsStr req) "" then inr [] else unmarshal req);
    [eauto|].
  destruct (String.eqb (age req) ""); [eauto|].
  destruct (String.eqb (video_type req) ""); [eauto|].
  destruct Hbad as [(H6 & H12 & H16) | (Hblur & Htrim)].
  - rewrite !eqb_false_of_ne by assumption. simpl. eauto.
  - destruct (negb (String.eqb (age req) "6") && negb (String.eqb (age req) "12")
              && negb (String.eqb (age req) "16")); [eauto|].
    rewrite !eqb_false_of_ne by assumption. simpl. eauto.
Qed.

Lemma convertVideo_rejects_invalid_policy_witness :
  exists msg,
    convertVideo (mkConvertRequest "18" "blur" "" (Some "clip.mp4") (inr []) false
                    (Opened (mkVideo 30 1 [mkFrame true (Classified "6+" "")])) None)
    = (Returned (mkResponse StatusBadRequest (Some msg)), []).
Proof.
  apply convertVideo_rejects_invalid_policy.
  left. simpl. repeat split; discriminate.
Defined.

(** A valid policy reaches the editor: the validation is not vacuous. *)
Lemma convertVideo_accepts_valid_policy :
  convertVideo (mkConvertRequest "12" "blur" "" (Some "clip.mp4") (inr []) false
                  (Opened (mkVideo 30 1 [mkFrame true (Classified "6+" "")])) None)
  = (Returned (mkResponse StatusOK None),
     [SaveUploadedFile; ProcessVideoByAge (Returned [Unmodified 0]); Remove]).
Proof. vm_compute. reflexivity. Qed.

(** ** The merger: fields that matter *)


Lemma emitOpen_shift (pfx : list RatingResult) (st st' : MergeState) (e : float) :
  results st = pfx ++ results st' -> sameOpen st st' ->
  emitOpen st e = pfx ++ emitOpen st' e.
Proof.
  intros Hres [Hlast Hopen]. unfold emitOpen, closedSegment.
  rewrite <- Hlast, Hres.
  destruct (String.eqb (lastRating st) "") eqn:He; [reflexivity|].
  apply String.eqb_neq in He. destruct (Hopen He) as [-> ->].
  now rewrite <- app_assoc.
Qed.

Lemma mergeStep_shift (pfx : list RatingResult) (st st' : MergeState)
    (t : float) (r n : string) :
  results st = pfx ++ results st' -> sameOpen st st' ->
  results (mergeStep st t r n) = pfx ++ results (mergeStep st' t r n) /\
  sameOpen (mergeStep st t r n) (mergeStep st' t r n).
Proof.
  intros Hres Hsame. pose proof Hsame as [Hlast Hopen].
  unfold mergeStep. rewrite <- Hlast.
  destruct (String.eqb r (lastRating st)) eqn:He; simpl.
  - split; [exact Hres|]. split; [reflexivity|].
    simpl. intros Hne. destruct (Hopen Hne) as [-> ->]. auto.
  - split; [now apply emitOpen_shift|]. split; simpl; auto.
Qed.

Lemma mergeSamples_shift (samples : list Sample) (pfx : list RatingResult)
    (st st' : MergeState) :
  results st = pfx ++ results st' -> sameOpen st st' ->
  results (mergeSamples st samples) = pfx ++ results (mergeSamples st' samples) /\
  sameOpen (mergeSamples st samples) (mergeSamples st' samples).
Proof.
  revert st st'. induction samples as [|s rest IH]; intros st st' Hres Hsame.
  - auto.
  - simpl. destruct (mergeStep_shift pfx st st' (timestamp s) (rating s) (notes s))
      as [Hres' Hsame']; auto.
Qed.

Lemma mergeSamples_app (st : MergeState) (xs ys : list Sample) :
  mergeSamples st (xs ++ ys) = mergeSamples (mergeSamples st xs) ys.
Proof. unfold mergeSamples. apply fold_left_app. Qed.

(** A run of samples without rating leaves the merger without an open
    segment and with the segments it had. *)
Lemma mergeSamples_unrated (lead : list Sample) (st : MergeState) :
  lastRating st = "" -> (forall s, In s lead -> rating s = "") ->
  results (mergeSamples st lead) = results st /\
  lastRating (mergeSamples st lead) = "".
Proof.
  revert st. induction lead as [|s rest IH]; intros st Hlast Hlead; [auto|].
  simpl. assert (Hs : rating s = "") by (apply Hlead; now left).
  assert (Hstep : results (mergeStep st (timestamp s) (rating s) (notes s)) = results st /\
                  lastRating (mergeStep st (timestamp s) (rating s) (notes s)) = "").
  { unfold mergeStep. rewrite Hs, Hlast. simpl. auto. }
  destruct Hstep as [Hres Hlast'].
  destruct (IH _ Hlast') as [Hres' Hlast''].
  - intros s' Hs'. apply Hlead. now right.
  - split; [congruence | exact Hlast''].
Qed.

(** ** The merger: no segment without rating *)



Lemma emitOpen_rated (st : MergeState) (e : float) :
  Forall rated (results st) -> Forall rated (emitOpen st e).
Proof.
  intros Hres. unfold emitOpen.
  destruct (String.eqb (lastRating st) "") eqn:He; [exact Hres|].
  apply Forall_app; split; [exact Hres|].
  constructor; [|constructor]. now apply String.eqb_neq.
Qed.

Lemma mergeStep_rated (st : MergeState) (t : float) (r n : string) :
  Forall rated (results st) -> Forall rated (results (mergeStep st t r n)).
Proof.
  intros Hres. unfold mergeStep.
  destruct (String.eqb r (lastRating st)); simpl; [exact Hres|].
  now apply emitOpen_rated.
Qed.

Lemma mergeSamples_rated (samples : list Sample) (st : MergeState) :
  Forall rated (results st) -> Forall rated (results (mergeSamples st samples)).
Proof.
  revert st. induction samples as [|s rest IH]; intros st Hres; [exact Hres|].
  simpl. apply IH. now apply mergeStep_rated.
Qed.

(** The frame loop with a usable sampling step. *)
Lemma sampleLoop_cons (fps : float) (step : Z) (f : Frame) (rest : list Frame)
    (i : Z) (st : MergeState) :
  F.to_int fps = Some step -> step <> 0 ->
  sampleLoop fps (f :: rest) i st =
  if Z.rem i step =? 0 then
    if negb (encodes f) then sampleLoop fps rest (i + 1) st
    else match verdict f with
         | ClassifierError err =>
             (Returned [errorSegment (F.of_int i / fps)%float err], [i])
         | Classified r n =>
             let (out, calls) :=
               sampleLoop fps rest (i + 1) (mergeStep st (F.of_int i / fps)%float r n) in
             (out, i :: calls)
         end
  else sampleLoop fps rest (i + 1) st.
Proof.
  intros Hstep Hnz. simpl. rewrite Hstep.
  destruct step; [congruence | reflexivity | reflexivity].
Qed.

Lemma sampleLoop_rated (fps : float) (frames : list Frame) (i : Z)
    (st : MergeState) (rs : list RatingResult) :
  Forall rated (results st) ->
  fst (sampleLoop fps frames i st) = Returned rs -> Forall rated rs.
Proof.
  revert i st. induction frames as [|f rest IH]; intros i st Hres Hout.
  - simpl in Hout. injection Hout as <-. now apply emitOpen_rated.
  - destruct (F.to_int fps) as [step|] eqn:Hstep;
      [|simpl in Hout; rewrite Hstep in Hout; discriminate].
    destruct (Z.eq_dec step 0) as [-> | Hnz];
      [simpl in Hout; rewrite Hstep in Hout; discriminate|].
    rewrite (sampleLoop_cons fps step) in Hout by assumption.
    destruct (Z.rem i step =? 0); [|now apply (IH (i + 1) st)].
    destruct (negb (encodes f)); [now apply (IH (i + 1) st)|].
    destruct (verdict f) as [r n | err].
    + destruct (sampleLoop fps rest (i + 1) (mergeStep st (F.of_int i / fps) r n))
        as [out calls] eqn:Hloop.
      simpl in Hout. apply (IH (i + 1) (mergeStep st (F.of_int i / fps)%float r n)).
      * now apply mergeStep_rated.
      * now rewrite Hloop.
    + simpl in Hout. injection Hout as <-.
      constructor; [|constructor]. unfold rated, errorSegment. simpl. discriminate.
Qed.

(** C10. No segment the merger emits has an empty rating, and neither has
    any segment [processVideo] returns; the samples of a leading run without
    rating leave no trace: the result is that of the remaining samples. *)
Theorem no_segment_without_rating :
  (forall samples total s, In s (merge samples total) -> Rating s <> "") /\
  (forall opened rs s, processVideo opened = Returned rs -> In s rs -> Rating s <> "") /\
  (forall lead rest total,
     (forall s, In s lead -> rating s = "") ->
     merge (lead ++ rest) total = merge rest total).
Proof.
  split; [|split].
  - intros samples total s Hin.
    assert (H : Forall rated (merge samples total)).
    { apply emitOpen_rated, mergeSamples_rated. constructor. }
    rewrite Forall_forall in H. apply (H s). now apply list_elem_of_In.
  - intros opened rs s Hout Hin. unfold processVideo, analyze in Hout.
    destruct opened as [video | err]; [|discriminate].
    assert (H : Forall rated rs).
    { eapply sampleLoop_rated; [|exact Hout]. constructor. }
    rewrite Forall_forall in H. apply (H s). now apply list_elem_of_In.
  - intros lead rest total Hlead. unfold merge. rewrite mergeSamples_app.
    destruct (mergeSamples_unrated lead initState eq_refl Hlead) as [Hres Hlast].
    destruct (mergeSamples_shift rest [] (mergeSamples initState lead) initState)
      as [Hres' Hsame].
    + exact Hres.
    + split; [exact Hlast|]. intros Hne. contradiction.
    + now apply (emitOpen_shift []).
Qed.

Lemma no_segment_without_rating_witness :
  merge ([mkSample 0 "" "fog"; mkSample 1 "" "static"] ++ [mkSample 2 "6+" "kids"]) 3
  = merge [mkSample 2 "6+" "kids"] 3 /\
  Rating (mkRatingResult 2 3 "6+" "kids") <> "".
Proof.
  destruct no_segment_without_rating as (Hrated & _ & Hlead). split.
  - apply Hlead. intros s [<- | [<- | []]]; reflexivity.
  - apply (Hrated [mkSample 2 "6+" "kids"] 3%float). vm_compute. now left.
Defined.

(** ** Classifier failure *)

(** The frame loop up to the first sampled frame the classifier fails on.
    The frames before it are [pre]; those of them that are sampled and
    encoded were classified. *)
Lemma sampleLoop_failure (fps : float) (step : Z) (f : Frame) (post : list Frame)
    (err : string) :
  F.to_int fps = Some step -> step <> 0 ->
  encodes f = true -> verdict f = ClassifierError err ->
  forall (pre : list Frame) (i : Z) (st : MergeState),
    Z.rem (i + Z.of_nat (length pre)) step = 0 ->
    (forall (n : nat) (g : Frame),
        pre !! n = Some g -> Z.rem (i + Z.of_nat n) step = 0 ->
        encodes g = true -> exists r nt, verdict g = Classified r nt) ->
    fst (sampleLoop fps (pre ++ f :: post) i st) =
      Returned [errorSegment (F.of_int (i + Z.of_nat (length pre)) / fps)%float err] /\
    (forall k, In k (snd (sampleLoop fps (pre ++ f :: post) i st)) ->
               i <= k <= i + Z.of_nat (length pre)) /\
    In (i + Z.of_nat (length pre)) (snd (sampleLoop fps (pre ++ f :: post) i st)).
Proof.
  intros Hstep Hnz Henc Hverdict.
  induction pre as [|g pre IH]; intros i st Hsampled Hpre.
  - simpl app. rewrite (sampleLoop_cons fps step) by assumption.
    simpl in Hsampled. rewrite Z.add_0_r in *.
    rewrite Hsampled, Henc, Hverdict. simpl.
    split; [reflexivity|]. split; [intros k [<- | []]; lia | now left].
  - simpl app. rewrite (sampleLoop_cons fps step) by assumption.
    assert (Hlen : i + 1 + Z.of_nat (length pre) = i + Z.of_nat (length (g :: pre)))
      by (simpl length; lia).
    assert (Hpre' : forall (n : nat) (h : Frame),
               pre !! n = Some h -> Z.rem (i + 1 + Z.of_nat n) step = 0 ->
               encodes h = true -> exists r nt, verdict h = Classified r nt).
    { intros n h Hn Hrem. apply (Hpre (S n) h Hn).
      replace (i + Z.of_nat (S n)) with (i + 1 + Z.of_nat n) by lia. exact Hrem. }
    assert (Hsampled' : Z.rem (i + 1 + Z.of_nat (length pre)) step = 0)
      by (rewrite Hlen; exact Hsampled).
    assert (Hskip : forall st',
               fst (sampleLoop fps (pre ++ f :: post) (i + 1) st') =
                 Returned [errorSegment
                             (F.of_int (i + Z.of_nat (length (g :: pre))) / fps)%float err] /\
               (forall k, In k (snd (sampleLoop fps (pre ++ f :: post) (i + 1) st')) ->
                          i <= k <= i + Z.of_nat (length (g :: pre))) /\
               In (i + Z.of_nat (length (g :: pre)))
                  (snd (sampleLoop fps (pre ++ f :: post) (i + 1) st'))).
    { intros st'. destruct (IH (i + 1) st' Hsampled' Hpre') as (H1 & H2 & H3).
      rewrite <- Hlen. split; [exact H1|]. split; [|exact H3].
      intros k Hk. apply H2 in Hk. lia. }
    destruct (Z.rem i step =? 0) eqn:Hrem; [|apply Hskip].
    destruct (encodes g) eqn:Hg; simpl negb; cbv iota; [|apply Hskip].
    destruct (Hpre 0%nat g eq_refl) as (r & nt & Hv); auto.
    { rewrite Z.add_0_r. now apply Z.eqb_eq. }
    rewrite Hv.
    destruct (Hskip (mergeStep st (F.of_int i / fps)%float r nt)) as (H1 & H2 & H3).
    destruct (sampleLoop fps (pre ++ f :: post) (i + 1)
                         (mergeStep st (F.of_int i / fps)%float r nt)) as [out calls].
    simpl in *. split; [exact H1|]. split; [|now right].
    intros k [<- | Hk]; [lia | now apply H2].
Qed.

(** C7. When the classifier fails on a sampled frame, [processVideo]
    returns the single segment that starts at that frame's timestamp and
    carries the error text in its rating; what was merged before is not
    returned, and no frame after it is handed to the classifier. *)
Theorem classifier_failure_is_terminal (video : Video) (step : Z)
    (pre : list Frame) (f : Frame) (post : list Frame) (err : string) :
  frames video = pre ++ f :: post ->
  F.to_int (defaultFps (VideoCaptureFPS video)) = Some step -> step <> 0 ->
  Z.rem (Z.of_nat (length pre)) step = 0 ->
  encodes f = true -> verdict f = ClassifierError err ->
  (forall (n : nat) (g : Frame),
      pre !! n = Some g -> Z.rem (Z.of_nat n) step = 0 ->
      encodes g = true -> exists r nt, verdict g = Classified r nt) ->
  let failedAt := Z.of_nat (length pre) in
  processVideo (Opened video) =
    Returned [mkRatingResult (F.of_int failedAt / defaultFps (VideoCaptureFPS video))%float
                             0 ("Error: " ++ err)%string ""] /\
  In failedAt (classifierCalls (Opened video)) /\
  (forall k, In k (classifierCalls (Opened video)) -> k <= failedAt).
Proof.
  intros Hframes Hstep Hnz Hsampled Henc Hverdict Hpre failedAt.
  unfold processVideo, classifierCalls, analyze. rewrite Hframes.
  destruct (sampleLoop_failure (defaultFps (VideoCaptureFPS video)) step f post err
              Hstep Hnz Henc Hverdict pre 0 initState) as (H1 & H2 & H3).
  - exact Hsampled.
  - intros n g Hn Hrem. apply (Hpre n g Hn). exact Hrem.
  - simpl in H1, H2, H3. split; [exact H1|]. split; [exact H3|].
    intros k Hk. apply H2 in Hk. unfold failedAt. lia.
Qed.

Lemma classifier_failure_is_terminal_witness :
  let video := mkVideo 1 4 [mkFrame true (Classified "6+" "kids");
                            mkFrame true (ClassifierError "timeout");
                            mkFrame true (Classified "18+" "gore");
                            mkFrame true (Classified "18+" "gore")] in
  processVideo (Opened video) = Returned [mkRatingResult 1 0 "Error: timeout" ""] /\
  In 1 (classifierCalls (Opened video)) /\
  (forall k, In k (classifierCalls (Opened video)) -> k <= 1).
Proof.
  intros video.
  apply (classifier_failure_is_terminal video 1
           [mkFrame true (Classified "6+" "kids")]
           (mkFrame true (ClassifierError "timeout"))
           [mkFrame true (Classified "18+" "gore"); mkFrame true (Classified "18+" "gore")]
           "timeout"); try reflexivity.
  - lia.
  - intros [|n] g Hn _ _; [|destruct n; discriminate].
    injection Hn as <-. simpl. eauto.
Defined.

(** ** Orders *)

Lemma SFltb_trans (a b c : spec_float) :
  SFltb a b = true -> SFltb b c = true -> SFltb a c = true.
Proof.
  unfold SFltb, SFcompare.
  destruct a as [sa | sa | | sa ma ea], b as [sb | sb | | sb mb eb],
           c as [sc | sc | | sc mc ec];
    repeat match goal with s : bool |- _ => destruct s end;
    try discriminate; try reflexivity.
  all: destruct (Z.compare_spec ea eb), (Z.compare_spec eb ec), (Z.compare_spec ea ec);
    try discriminate; try reflexivity; try lia; subst.
  all: rewrite ?Pos.compare_cont_spec; simpl;
    destruct (Pos.compare_spec ma mb), (Pos.compare_spec mb mc), (Pos.compare_spec ma mc);
    simpl; try discriminate; try reflexivity; try lia.
Qed.

(** [<] on [float64] is transitive. *)
Lemma flt_trans (x y z : float) : F.lt x y -> F.lt y z -> F.lt x z.
Proof. unfold F.lt. rewrite !ltb_spec. apply SFltb_trans. Qed.

Lemma flt_transitive : Transitive F.lt.
Proof. intros x y z. apply flt_trans. Qed.

Lemma ascii_compare_lt (a b : ascii) :
  Ascii.compare a b = Lt <-> (N_of_ascii a < N_of_ascii b)%N.
Proof. unfold Ascii.compare. apply N.compare_lt_iff. Qed.

Lemma string_leb_trans (s1 s2 s3 : string) :
  String.leb s1 s2 = true -> String.leb s2 s3 = true -> String.leb s1 s3 = true.
Proof.
  unfold String.leb. revert s2 s3.
  induction s1 as [|a s1 IH]; intros [|b s2] [|c s3]; simpl; try easy.
  destruct (Ascii.compare a b) eqn:Hab, (Ascii.compare b c) eqn:Hbc; try easy.
  - apply Ascii.compare_eq_iff in Hab, Hbc. subst.
    replace (Ascii.compare c c) with Eq; [apply IH|].
    unfold Ascii.compare. now rewrite N.compare_refl.
  - apply Ascii.compare_eq_iff in Hab. subst. now rewrite Hbc.
  - apply Ascii.compare_eq_iff in Hbc. subst. now rewrite Hab.
  - apply (proj1 (ascii_compare_lt _ _)) in Hab.
    apply (proj1 (ascii_compare_lt _ _)) in Hbc.
    assert (H : Ascii.compare a c = Lt) by (apply ascii_compare_lt; lia).
    now rewrite H.
Qed.

Lemma strings_le_transitive : Transitive Strings.le.
Proof. intros x y z. apply string_leb_trans. Qed.

Lemma strings_le_antisym : AntiSymm (=) Strings.le.
Proof. intros x y. apply String.leb_antisym. Qed.

Lemma strings_le_total : Total Strings.le.
Proof. intros x y. apply String.leb_total. Qed.

(** [sort.Strings] gives the same list whatever the order in which the map
    iteration delivered the keys. *)
Lemma SortStrings_perm (l1 l2 : list string) :
  l1 ≡ₚ l2 -> Strings.SortStrings l1 = Strings.SortStrings l2.
Proof.
  intros Hperm. unfold Strings.SortStrings.
  pose proof strings_le_transitive. pose proof strings_le_antisym.
  pose proof strings_le_total.
  apply (Sorted_unique Strings.le).
  - apply Sorted_merge_sort; apply _.
  - apply Sorted_merge_sort; apply _.
  - now rewrite !merge_sort_Permutation.
Qed.

Lemma notesStr_any_iteration_order (combined : gset string) (keys : list string) :
  keys ≡ₚ elements combined ->
  Strings.Join (Strings.SortStrings keys) ", " = notesStr combined.
Proof. intros Hperm. unfold notesStr. now rewrite (SortStrings_perm _ _ Hperm). Qed.

(** ** The merger: order of the segments *)



Lemma before_transitive : Transitive before.
Proof.
  intros a b c [Hab1 Hab2] [Hbc1 Hbc2]. split.
  - now apply (flt_trans _ (Start b)).
  - now apply (flt_trans _ (Start b)).
Qed.


Section MergeOrder.

Variable all : list Sample.
Hypothesis step_back :
  forall s, In s all -> F.lt (timestamp s - 1)%float (timestamp s).


Lemma emit_sorted (st : MergeState) (rest : list Sample) (e : float) :
  Inv all st rest -> Sorted (follows all) (results st ++ [closedSegment st e]).
Proof using step_back.
  intros (Hsorted & Hlast & _). apply Sorted_snoc; [exact Hsorted|].
  destruct (last (results st)) as [z|] eqn:Hz.
  - destruct (Hlast z eq_refl) as (s & Hs & Hend & Hstart & Hat & Hrated).
    apply last_Some in Hz as [l' ->]. constructor.
    assert (Hend' : F.lt (End_ z) (timestamp s))
      by (rewrite Hend; now apply step_back).
    unfold follows, closedSegment; simpl.
    destruct Hat as [<- | Hlt].
    + split; [exact Hstart|]. split; [exact Hend'|]. exists s. auto.
    + split; [now apply (flt_trans _ (timestamp s))|].
      split; [now apply (flt_trans _ (timestamp s))|].
      exists s. split; [exact Hs|]. split; [exact Hend|].
      intros Hr. now destruct (Hrated Hr) as [-> _].
  - apply last_None in Hz. rewrite Hz. constructor.
Qed.

Lemma mergeStep_inv (st : MergeState) (s : Sample) (rest : list Sample) :
  In s all -> (forall s', In s' rest -> F.lt (timestamp s) (timestamp s')) ->
  Inv all st (s :: rest) ->
  Inv all (mergeStep st (timestamp s) (rating s) (notes s)) rest.
Proof using step_back.
  intros Hs Hlater HInv. pose proof HInv as (Hsorted & Hlast & Hbound).
  unfold mergeStep.
  destruct (String.eqb (rating s) (lastRating st)) eqn:Hsame.
  - (* the open segment continues *)
    split; [exact Hsorted|]. split; [exact Hlast|]. simpl.
    intros Hopen s' Hs'. apply (Hbound Hopen). now right.
  - apply String.eqb_neq in Hsame. unfold emitOpen.
    destruct (String.eqb (lastRating st) "") eqn:Hempty.
    + (* nothing is open: a segment starts *)
      apply String.eqb_eq in Hempty. split; [exact Hsorted|]. split; simpl.
      * intros z Hz.
        destruct (Hlast z Hz) as (c & Hc & Hend & Hstart & Hat & Hrated).
        assert (Hnow : F.lt (startTime st) (timestamp s)).
        { apply Hbound; [|now left]. right. intros Hnil.
          rewrite Hnil in Hz. discriminate. }
        exists c. split; [exact Hc|]. split; [exact Hend|]. split; [exact Hstart|].
        split.
        -- right. destruct Hat as [-> | Hlt]; [exact Hnow|].
           now apply (flt_trans _ (startTime st)).
        -- intros Hr. destruct (Hrated Hr) as [_ Hopen]. contradiction.
      * intros _ s' Hs'. now apply Hlater.
    + (* the open segment is closed and the next one starts *)
      apply String.eqb_neq in Hempty. split; [now apply (emit_sorted st (s :: rest))|].
      split; simpl.
      * intros z Hz. rewrite last_snoc in Hz. injection Hz as <-.
        exists s. unfold closedSegment; simpl.
        split; [exact Hs|]. split; [reflexivity|].
        split; [apply Hbound; [now left | now left]|].
        split; [now left|]. intros Hr. auto.
      * intros _ s' Hs'. now apply Hlater.
Qed.

Lemma mergeSamples_inv (rest : list Sample) (st : MergeState) :
  StronglySorted F.lt (map timestamp rest) ->
  (forall s, In s rest -> In s all) ->
  Inv all st rest -> Inv all (mergeSamples st rest) [].
Proof using step_back.
  revert st. induction rest as [|s rest IH]; intros st Hincr Hall HInv.
  - exact HInv.
  - simpl in Hincr. apply StronglySorted_inv in Hincr as [Hincr Hhead].
    simpl. apply IH; [exact Hincr | intros s' Hs'; apply Hall; now right |].
    apply mergeStep_inv; [apply Hall; now left | | exact HInv].
    intros s' Hs'. rewrite Forall_forall in Hhead. apply Hhead.
    apply list_elem_of_In. now apply in_map.
Qed.

Lemma emitOpen_sorted (st : MergeState) (e : float) :
  Inv all st [] -> Sorted (follows all) (emitOpen st e).
Proof using step_back.
  intros HInv. unfold emitOpen.
  destruct (String.eqb (lastRating st) ""); [apply HInv|].
  now apply (emit_sorted st []).
Qed.

End MergeOrder.

Lemma Inv_initState (all rest : list Sample) : Inv all initState rest.
Proof.
  split; [constructor|]. split.
  - intros z Hz. discriminate.
  - intros [H | H]; now destruct H.
Qed.

(** The emitted segments only grow at the end. *)
Lemma mergeStep_extends (st : MergeState) (t : float) (r n : string) :
  exists more, results (mergeStep st t r n) = results st ++ more.
Proof.
  unfold mergeStep, emitOpen.
  destruct (String.eqb r (lastRating st)); simpl.
  - exists []. now rewrite app_nil_r.
  - destruct (String.eqb (lastRating st) ""); [exists []; now rewrite app_nil_r | eauto].
Qed.

Lemma mergeSamples_extends (samples : list Sample) (st : MergeState) :
  exists more, results (mergeSamples st samples) = results st ++ more.
Proof.
  revert st. induction samples as [|s rest IH]; intros st.
  - exists []. now rewrite app_nil_r.
  - simpl. destruct (IH (mergeStep st (timestamp s) (rating s) (notes s))) as [m2 H2].
    destruct (mergeStep_extends st (timestamp s) (rating s) (notes s)) as [m1 H1].
    exists (m1 ++ m2). now rewrite H2, H1, app_assoc.
Qed.

(** The first segment starts where the open segment of an empty result
    started. *)
Lemma first_segment_start (samples : list Sample) (st : MergeState) (e : float) :
  results st = [] -> lastRating st <> "" ->
  exists z more, emitOpen (mergeSamples st samples) e = z :: more /\
                 Start z = startTime st /\ Rating z = lastRating st.
Proof.
  revert st. induction samples as [|s rest IH]; intros st Hnil Hopen.
  - simpl. unfold emitOpen. rewrite (eqb_false_of_ne _ _ Hopen), Hnil.
    simpl. eauto.
  - simpl. unfold mergeStep.
    destruct (String.eqb (rating s) (lastRating st)) eqn:Hsame.
    + apply (IH (mkMergeState (results st) (lastRating st) (startTime st)
                              (addNotes (combinedNotes st) (notes s))) Hnil Hopen).
    + set (st' := mkMergeState _ _ _ _).
      destruct (mergeSamples_extends rest st') as [more Hmore].
      assert (Hres : results st' = [closedSegment st (timestamp s - 1)%float]).
      { unfold st', emitOpen. simpl. now rewrite (eqb_false_of_ne _ _ Hopen), Hnil. }
      unfold emitOpen. rewrite Hmore, Hres.
      destruct (String.eqb (lastRating (mergeSamples st' rest)) ""); simpl; eauto.
Qed.

Lemma Sorted_weaken {A} (R R' : A -> A -> Prop) (l : list A) :
  (forall a b, R a b -> R' a b) -> Sorted R l -> Sorted R' l.
Proof.
  intros Himpl. induction 1 as [|a l Hl IH Hhd]; constructor; [exact IH|].
  destruct Hhd; constructor. now apply Himpl.
Qed.

Lemma lastRating_mergeStep (st : MergeState) (t : float) (r n : string) :
  lastRating (mergeStep st t r n) = r.
Proof.
  unfold mergeStep. destruct (String.eqb r (lastRating st)) eqn:He; simpl; [|reflexivity].
  apply String.eqb_eq in He. now symmetry.
Qed.

Lemma lastRating_mergeSamples (samples : list Sample) (st : MergeState) :
  lastRating (mergeSamples st samples) =
  match last samples with
  | Some s => rating s
  | None => lastRating st
  end.
Proof.
  induction samples as [|s rest IH] using rev_ind; [reflexivity|].
  rewrite mergeSamples_app, last_snoc. simpl. apply lastRating_mergeStep.
Qed.

(** C1, as the code has it. The empty sample sequence gives the empty
    list, without error. When the timestamps increase strictly (and
    [t - 1 < t] at each of them), every segment starts before and ends
    before the start of each later one, and a segment that is followed by
    another ends one time unit before the timestamp of the sample that
    closed it, where the next segment starts if that sample has a rating.
    The first segment starts at the first timestamp when the first sample
    has a rating, and the last one ends at the total duration when the last
    sample has one. *)
Theorem merge_segments_ordered (samples : list Sample) (total : float) :
  merge [] total = [] /\
  (forall video, frames video = [] -> processVideo (Opened video) = Returned []) /\
  (Sorted F.lt (map timestamp samples) ->
   (forall s, In s samples -> F.lt (timestamp s - 1)%float (timestamp s)) ->
   Sorted (follows samples) (merge samples total) /\
   StronglySorted before (merge samples total)) /\
  (forall s rest, samples = s :: rest -> rating s <> "" ->
     exists z more, merge samples total = z :: more /\ Start z = timestamp s) /\
  (forall s, last samples = Some s -> rating s <> "" ->
     exists z, last (merge samples total) = Some z /\ End_ z = total).
Proof.
  split; [reflexivity|]. split; [|split; [|split]].
  - intros video Hnil. unfold processVideo, analyze. now rewrite Hnil.
  - intros Hincr Hback.
    assert (Hsorted : Sorted (follows samples) (merge samples total)).
    { apply (emitOpen_sorted samples Hback).
      apply (mergeSamples_inv samples Hback).
      - now apply Sorted_StronglySorted; [apply flt_transitive|].
      - auto.
      - apply Inv_initState. }
    split; [exact Hsorted|].
    apply Sorted_StronglySorted; [apply before_transitive|].
    apply (Sorted_weaken (follows samples)); [|exact Hsorted].
    intros a b (H1 & H2 & _). now split.
  - intros s rest -> Hrated. unfold merge. simpl.
    assert (Hstep : mergeStep initState (timestamp s) (rating s) (notes s) =
                    mkMergeState [] (rating s) (timestamp s) (addNotes ∅ (notes s))).
    { unfold mergeStep, emitOpen. simpl. now rewrite (eqb_false_of_ne _ _ Hrated). }
    rewrite Hstep.
    destruct (first_segment_start rest
                (mkMergeState [] (rating s) (timestamp s) (addNotes ∅ (notes s))) total)
      as (z & more & Heq & Hstart & _); auto.
    exists z, more. auto.
  - intros s Hlast Hrated. unfold merge, emitOpen.
    rewrite lastRating_mergeSamples, Hlast, (eqb_false_of_ne _ _ Hrated).
    rewrite last_snoc. eexists. split; [reflexivity|]. reflexivity.
Qed.

Lemma merge_segments_ordered_witness :
  Sorted (follows scenarioA) (merge scenarioA 3) /\
  StronglySorted before (merge scenarioA 3).
Proof.
  refine (proj1 (proj2 (proj2 (merge_segments_ordered scenarioA 3))) _ _).
  - repeat constructor.
  - intros s [<- | [<- | [<- | []]]]; reflexivity.
Defined.

(** C1 as stated fails on scenario A of the specification: the segments
    are [0, 1] and [2, 3], and the time 1.5 between the first timestamp 0
    and the total duration 3 lies in neither. *)
Lemma scenarioA_not_covered :
  merge scenarioA 3 =
    [mkRatingResult 0 1 "6+" "forest, kids"; mkRatingResult 2 3 "12+" "fight"] /\
  ~ covers (merge scenarioA 3) 0 3.
Proof.
  split; [vm_compute; reflexivity|].
  intros Hcov. destruct (Hcov 1.5%float) as (s & Hin & Hlo & Hhi);
    [reflexivity | reflexivity |].
  vm_compute in Hin. destruct Hin as [<- | [<- | []]].
  - vm_compute in Hhi. discriminate.
  - vm_compute in Hlo. discriminate.
Qed.

(** ** The notes on ASCII strings *)


Lemma is_space_lower_byte (c : ascii) :
  Strings.is_space (Strings.lower_byte c) = Strings.is_space c.
Proof. destruct c as [[] [] [] [] [] [] [] []]; reflexivity. Qed.

Lemma TrimLeft_ToLower (s : string) :
  Strings.TrimLeft (Strings.ToLower s) = Strings.ToLower (Strings.TrimLeft s).
Proof.
  induction s as [|c rest IH]; [reflexivity|].
  simpl. rewrite is_space_lower_byte.
  destruct (Strings.is_space c); [exact IH | reflexivity].
Qed.

Lemma TrimRight_ToLower (s : string) :
  Strings.TrimRight (Strings.ToLower s) = Strings.ToLower (Strings.TrimRight s).
Proof.
  induction s as [|c rest IH]; [reflexivity|].
  simpl. rewrite IH, is_space_lower_byte.
  destruct (Strings.TrimRight rest); simpl; [|reflexivity].
  now destruct (Strings.is_space c).
Qed.

(** Trimming and lower-casing commute: the code lower-cases first. *)
Lemma TrimSpace_ToLower (s : string) :
  Strings.TrimSpace (Strings.ToLower s) = Strings.ToLower (Strings.TrimSpace s).
Proof. unfold Strings.TrimSpace. now rewrite TrimLeft_ToLower, TrimRight_ToLower. Qed.

Lemma addNotes_tokens (acc : gset string) (notes : string) :
  addNotes acc notes = list_to_set (specTokens notes) ∪ acc.
Proof.
  unfold addNotes, specTokens. revert acc.
  induction (Strings.Split notes ",") as [|tok toks IH]; intros acc; simpl.
  - set_solver.
  - rewrite IH. unfold addNote. rewrite TrimSpace_ToLower.
    destruct (negb (String.eqb _ "") && negb (String.eqb _ "none")); simpl; set_solver.
Qed.

(** ** The merger: notes of a run *)

(** With the byte-level normalisation, [mergeWith] is [merge]. *)
Lemma mergeWith_normalNote (samples : list Sample) (total : float) :
  mergeWith normalNote samples total = merge samples total.
Proof. reflexivity. Qed.

Section MergerWith.

Variable norm : string -> string.

Lemma mergeStepWith_shift (pfx : list RatingResult) (st st' : MergeState)
    (t : float) (r n : string) :
  results st = pfx ++ results st' -> sameOpen st st' ->
  results (mergeStepWith norm st t r n) = pfx ++ results (mergeStepWith norm st' t r n) /\
  sameOpen (mergeStepWith norm st t r n) (mergeStepWith norm st' t r n).
Proof.
  intros Hres Hsame. pose proof Hsame as [Hlast Hopen].
  unfold mergeStepWith. rewrite <- Hlast.
  destruct (String.eqb r (lastRating st)) eqn:He; simpl.
  - split; [exact Hres|]. split; [reflexivity|].
    simpl. intros Hne. destruct (Hopen Hne) as [-> ->]. auto.
  - split; [now apply emitOpen_shift|]. split; simpl; auto.
Qed.

Lemma mergeSamplesWith_shift (samples : list Sample) (pfx : list RatingResult)
    (st st' : MergeState) :
  results st = pfx ++ results st' -> sameOpen st st' ->
  results (mergeSamplesWith norm st samples)
    = pfx ++ results (mergeSamplesWith norm st' samples) /\
  sameOpen (mergeSamplesWith norm st samples) (mergeSamplesWith norm st' samples).
Proof.
  revert st st'. induction samples as [|s rest IH]; intros st st' Hres Hsame.
  - auto.
  - simpl. destruct (mergeStepWith_shift pfx st st' (timestamp s) (rating s) (notes s))
      as [Hres' Hsame']; auto.
Qed.

Lemma mergeSamplesWith_app (st : MergeState) (xs ys : list Sample) :
  mergeSamplesWith norm st (xs ++ ys)
  = mergeSamplesWith norm (mergeSamplesWith norm st xs) ys.
Proof. unfold mergeSamplesWith. apply fold_left_app. Qed.

Lemma lastRating_mergeStepWith (st : MergeState) (t : float) (r n : string) :
  lastRating (mergeStepWith norm st t r n) = r.
Proof.
  unfold mergeStepWith.
  destruct (String.eqb r (lastRating st)) eqn:He; simpl; [|reflexivity].
  apply String.eqb_eq in He. now symmetry.
Qed.

Lemma lastRating_mergeSamplesWith (samples : list Sample) (st : MergeState) :
  lastRating (mergeSamplesWith norm st samples) =
  match last samples with
  | Some s => rating s
  | None => lastRating st
  end.
Proof.
  induction samples as [|s rest IH] using rev_ind; [reflexivity|].
  rewrite mergeSamplesWith_app, last_snoc. simpl. apply lastRating_mergeStepWith.
Qed.

Lemma mergeStepWith_extends (st : MergeState) (t : float) (r n : string) :
  exists more, results (mergeStepWith norm st t r n) = results st ++ more.
Proof.
  unfold mergeStepWith, emitOpen.
  destruct (String.eqb r (lastRating st)); simpl.
  - exists []. now rewrite app_nil_r.
  - destruct (String.eqb (lastRating st) ""); [exists []; now rewrite app_nil_r | eauto].
Qed.

Lemma mergeSamplesWith_extends (samples : list Sample) (st : MergeState) :
  exists more, results (mergeSamplesWith norm st samples) = results st ++ more.
Proof.
  revert st. induction samples as [|s rest IH]; intros st.
  - exists []. now rewrite app_nil_r.
  - simpl.
    destruct (IH (mergeStepWith norm st (timestamp s) (rating s) (notes s))) as [m2 H2].
    destruct (mergeStepWith_extends st (timestamp s) (rating s) (notes s)) as [m1 H1].
    exists (m1 ++ m2). now rewrite H2, H1, app_assoc.
Qed.

(** The first segment is the open segment of a state without segments. *)
Lemma first_segment_with (samples : list Sample) (st : MergeState) (e : float) :
  results st = [] -> lastRating st <> "" ->
  exists z more, emitOpen (mergeSamplesWith norm st samples) e = z :: more /\
                 Start z = startTime st /\ Rating z = lastRating st.
Proof.
  revert st. induction samples as [|s rest IH]; intros st Hnil Hopen.
  - simpl. unfold emitOpen. rewrite (eqb_false_of_ne _ _ Hopen), Hnil.
    simpl. eauto.
  - simpl. unfold mergeStepWith.
    destruct (String.eqb (rating s) (lastRating st)) eqn:Hsame.
    + apply (IH (mkMergeState (results st) (lastRating st) (startTime st)
                              (addNotesWith norm (combinedNotes st) (notes s))) Hnil Hopen).
    + set (st' := mkMergeState _ _ _ _).
      destruct (mergeSamplesWith_extends rest st') as [more Hmore].
      assert (Hres : results st' = [closedSegment st (timestamp s - 1)%float]).
      { unfold st', emitOpen. simpl. now rewrite (eqb_false_of_ne _ _ Hopen), Hnil. }
      unfold emitOpen. rewrite Hmore, Hres.
      destruct (String.eqb (lastRating (mergeSamplesWith norm st' rest)) ""); simpl; eauto.
Qed.

(** What a notes string adds to the map: its tokens. *)
Lemma addNotesWith_tokens (acc : gset string) (notes : string) :
  addNotesWith norm acc notes = list_to_set (tokensWith norm notes) ∪ acc.
Proof.
  unfold addNotesWith, tokensWith. revert acc.
  induction (Strings.Split notes ",") as [|tok toks IH]; intros acc; simpl.
  - set_solver.
  - rewrite IH. unfold addNoteWith.
    destruct (negb (String.eqb _ "") && negb (String.eqb _ "none")); simpl; set_solver.
Qed.

Lemma runTokensWith_perm (run run' : list Sample) :
  run ≡ₚ run' -> runTokensWith norm run = runTokensWith norm run'.
Proof. induction 1; simpl; set_solver. Qed.

Lemma runTokensWith_elem (run : list Sample) (tok : string) :
  tok ∈ runTokensWith norm run <->
  exists s, In s run /\ In tok (tokensWith norm (notes s)).
Proof.
  induction run as [|s rest IH]; simpl.
  - split; [set_solver | intros (s & [] & _)].
  - rewrite elem_of_union, elem_of_list_to_set, IH, list_elem_of_In.
    split.
    + intros [H | (s' & Hs' & H)]; eauto.
    + intros (s' & [<- | Hs'] & H); eauto.
Qed.

(** A run of samples with the rating of the open segment only adds notes. *)
Lemma mergeSamplesWith_same_rating (run : list Sample) (st : MergeState) :
  (forall s, In s run -> rating s = lastRating st) ->
  mergeSamplesWith norm st run =
  mkMergeState (results st) (lastRating st) (startTime st)
               (runTokensWith norm run ∪ combinedNotes st).
Proof.
  revert st. induction run as [|s rest IH]; intros st Hrun; simpl.
  - destruct st; simpl. f_equal. set_solver.
  - assert (Hs : String.eqb (rating s) (lastRating st) = true).
    { apply String.eqb_eq. apply Hrun. now left. }
    unfold mergeStepWith at 1. rewrite Hs. rewrite IH; simpl.
    + f_equal. rewrite addNotesWith_tokens. set_solver.
    + intros s' Hs'. apply Hrun. now right.
Qed.

(** The merger on a run of one rating: one segment. *)
Lemma mergeWith_run (first : Sample) (others : list Sample) (e : float) :
  rating first <> "" ->
  (forall s, In s others -> rating s = rating first) ->
  mergeWith norm (first :: others) e =
  [mkRatingResult (timestamp first) e (rating first)
                  (notesStr (runTokensWith norm (first :: others)))].
Proof.
  intros Hrated Hrun. unfold mergeWith. simpl.
  assert (Hstep : mergeStepWith norm initState (timestamp first) (rating first)
                                (notes first) =
                  mkMergeState [] (rating first) (timestamp first)
                               (addNotesWith norm ∅ (notes first))).
  { unfold mergeStepWith, emitOpen. simpl. now rewrite (eqb_false_of_ne _ _ Hrated). }
  rewrite Hstep, mergeSamplesWith_same_rating by exact Hrun.
  unfold emitOpen, closedSegment. simpl.
  rewrite (eqb_false_of_ne _ _ Hrated). simpl. do 3 f_equal.
  rewrite addNotesWith_tokens. set_solver.
Qed.

(** Where the rating changes, the merger's result is that of the samples
    before the change, closed one time unit before it, followed by that of
    the samples from the change on. *)
Lemma mergeWith_split (xs : list Sample) (y : Sample) (ys : list Sample)
    (total : float) :
  (forall p, last xs = Some p -> rating p <> rating y) ->
  mergeWith norm (xs ++ y :: ys) total =
  mergeWith norm xs (timestamp y - 1)%float ++ mergeWith norm (y :: ys) total.
Proof.
  intros Hchange. unfold mergeWith. rewrite mergeSamplesWith_app. simpl.
  set (st := mergeSamplesWith norm initState xs).
  assert (Hpair :
    results (mergeStepWith norm st (timestamp y) (rating y) (notes y)) =
      emitOpen st (timestamp y - 1)%float
      ++ results (mergeStepWith norm initState (timestamp y) (rating y) (notes y)) /\
    sameOpen (mergeStepWith norm st (timestamp y) (rating y) (notes y))
             (mergeStepWith norm initState (timestamp y) (rating y) (notes y))).
  { assert (Hinit : results (mergeStepWith norm initState (timestamp y) (rating y)
                                           (notes y)) = []).
    { unfold mergeStepWith, emitOpen. simpl. now destruct (String.eqb (rating y) ""). }
    rewrite Hinit, app_nil_r.
    destruct (last xs) as [p|] eqn:Hlast.
    - assert (Hne : rating y <> lastRating st).
      { unfold st. rewrite lastRating_mergeSamplesWith, Hlast.
        intros Heq. now apply (Hchange p). }
      unfold mergeStepWith at 1 2. rewrite (eqb_false_of_ne _ _ Hne). simpl.
      split; [reflexivity|]. split; simpl.
      + now rewrite lastRating_mergeStepWith.
      + intros Hrated. unfold mergeStepWith. simpl.
        now rewrite (eqb_false_of_ne _ _ Hrated).
    - apply last_None in Hlast. unfold st. rewrite Hlast. simpl.
      split; [|split; auto].
      rewrite Hinit. reflexivity. }
  destruct Hpair as [Hres Hsame].
  destruct (mergeSamplesWith_shift ys _ _ _ Hres Hsame) as [Hres' Hsame'].
  now apply emitOpen_shift.
Qed.

(** The samples up to one with a rating end in a segment with that rating,
    closed where the merger is told to. *)
Lemma mergeWith_last (xs : list Sample) (p : Sample) (e : float) :
  last xs = Some p -> rating p <> "" ->
  exists closed, last (mergeWith norm xs e) = Some closed /\
                 End_ closed = e /\ Rating closed = rating p.
Proof.
  intros Hlast Hrated. unfold mergeWith, emitOpen.
  rewrite lastRating_mergeSamplesWith, Hlast, (eqb_false_of_ne _ _ Hrated).
  rewrite last_snoc. eexists. split; [reflexivity|]. split; [reflexivity|].
  simpl. now rewrite lastRating_mergeSamplesWith, Hlast.
Qed.

(** The samples from one with a rating on begin with a segment that starts
    at its timestamp and has its rating. *)
Lemma mergeWith_first (s : Sample) (rest : list Sample) (total : float) :
  rating s <> "" ->
  exists opened more, mergeWith norm (s :: rest) total = opened :: more /\
                      Start opened = timestamp s /\ Rating opened = rating s.
Proof.
  intros Hrated. unfold mergeWith. simpl.
  assert (Hstep : mergeStepWith norm initState (timestamp s) (rating s) (notes s) =
                  mkMergeState [] (rating s) (timestamp s) (addNotesWith norm ∅ (notes s))).
  { unfold mergeStepWith, emitOpen. simpl. now rewrite (eqb_false_of_ne _ _ Hrated). }
  rewrite Hstep. now apply first_segment_with.
Qed.

(** A first sample without rating opens nothing. *)
Lemma mergeWith_unrated_first (s : Sample) (rest : list Sample) (total : float) :
  rating s = "" ->
  mergeWith norm (s :: rest) total = mergeWith norm rest total.
Proof.
  intros Hnone. unfold mergeWith. simpl.
  set (st := mergeStepWith norm initState (timestamp s) (rating s) (notes s)).
  assert (Hres : results st = [] ++ results initState).
  { unfold st, mergeStepWith. rewrite Hnone. reflexivity. }
  assert (Hsame : sameOpen st initState).
  { unfold st, mergeStepWith. rewrite Hnone. split; simpl; [reflexivity|].
    intros H. now destruct H. }
  destruct (mergeSamplesWith_shift rest [] st initState Hres Hsame) as [Hres' Hsame'].
  now apply (emitOpen_shift []).
Qed.

End MergerWith.

(** C3, for a rating that is not empty, and whatever the library's
    trimming and lower-casing [norm] do beyond ASCII. A maximal run of
    samples with the same rating gives exactly one segment, between the
    segments of the samples before the run and those of the samples after
    it. It starts at the run's first timestamp and its notes are the tokens
    of the run (comma-split, trimmed and lower-cased, without the empty
    token and "none"), each once, in increasing byte order, joined by ", ".
    The notes depend neither on the order in which the samples of the run
    arrive nor on the order in which the map delivers its keys. *)
Theorem run_collapses_to_one_segment (norm : string -> string)
    (pre others post : list Sample) (first : Sample) (total : float) :
  rating first <> "" ->
  (forall s, In s others -> rating s = rating first) ->
  (forall p, last pre = Some p -> rating p <> rating first) ->
  (forall q, head post = Some q -> rating q <> rating first) ->
  let run := first :: others in
  let sortedNotes := Strings.SortStrings (elements (runTokensWith norm run)) in
  let closedAt := match post with
                  | q :: _ => (timestamp q - 1)%float
                  | [] => total
                  end in
  mergeWith norm (pre ++ run ++ post) total =
    mergeWith norm pre (timestamp first - 1)%float
    ++ [mkRatingResult (timestamp first) closedAt (rating first)
                       (Strings.Join sortedNotes ", ")]
    ++ mergeWith norm post total /\
  Sorted Strings.le sortedNotes /\ NoDup sortedNotes /\
  (forall tok, In tok sortedNotes <->
               exists s, In s run /\ In tok (tokensWith norm (notes s))) /\
  (forall run', run' ≡ₚ run -> runTokensWith norm run' = runTokensWith norm run) /\
  (forall keys, keys ≡ₚ elements (runTokensWith norm run) ->
                Strings.SortStrings keys = sortedNotes).
Proof.
  intros Hrated Hrun Hpre Hpost run sortedNotes closedAt.
  split; [|split; [|split; [|split; [|split]]]].
  - unfold run. simpl app. rewrite mergeWith_split by exact Hpre. f_equal.
    destruct post as [|q post'].
    + rewrite app_nil_r, mergeWith_run by assumption. reflexivity.
    + change (first :: others ++ q :: post') with ((first :: others) ++ q :: post').
      rewrite mergeWith_split.
      * rewrite mergeWith_run by assumption. reflexivity.
      * intros p Hp. assert (Hq : rating q <> rating first) by now apply Hpost.
        destruct others as [|o others'] using rev_ind.
        -- injection Hp as <-. congruence.
        -- rewrite app_comm_cons, last_snoc in Hp. injection Hp as <-.
           rewrite Hrun; [congruence|]. apply in_or_app. right. now left.
  - apply Sorted_merge_sort; apply strings_le_total.
  - unfold sortedNotes, Strings.SortStrings.
    rewrite merge_sort_Permutation. apply NoDup_elements.
  - intros tok. unfold sortedNotes, Strings.SortStrings.
    rewrite <- list_elem_of_In, merge_sort_Permutation, elem_of_elements.
    apply runTokensWith_elem.
  - intros run'. apply runTokensWith_perm.
  - intros keys. apply SortStrings_perm.
Qed.

Lemma run_collapses_to_one_segment_witness :
  mergeWith normalNote
            ([mkSample 0 "12+" "Fight"]
             ++ [mkSample 1 "6+" "Kids, none"; mkSample 2 "6+" " forest ,kids"]
             ++ [mkSample 3 "18+" "gore"]) 4
  = mergeWith normalNote [mkSample 0 "12+" "Fight"] (1 - 1)%float
    ++ [mkRatingResult 1 (3 - 1)%float "6+" "forest, kids"]
    ++ mergeWith normalNote [mkSample 3 "18+" "gore"] 4.
Proof.
  refine (proj1 (run_collapses_to_one_segment normalNote
                   [mkSample 0 "12+" "Fight"] [mkSample 2 "6+" " forest ,kids"]
                   [mkSample 3 "18+" "gore"] (mkSample 1 "6+" "Kids, none") 4 _ _ _ _)).
  - simpl. discriminate.
  - intros s [<- | []]. reflexivity.
  - intros p Hp. injection Hp as <-. simpl. discriminate.
  - intros q Hq. injection Hq as <-. simpl. discriminate.
Defined.

(** C3 as stated fails for the empty rating: the maximal run of the two
    samples without rating, at 1 and 2, gives no segment. *)
Lemma unrated_run_gives_no_segment :
  merge [mkSample 0 "6+" "kids"; mkSample 1 "" "fog"; mkSample 2 "" "mist";
         mkSample 3 "12+" "fight"] 4
  = [mkRatingResult 0 0 "6+" "kids"; mkRatingResult 3 4 "12+" "fight"].
Proof. vm_compute. reflexivity. Qed.

(** ** The merger: where the rating changes *)

(** C4, as the code has it, whatever the library's normalisation [norm].
    A sample whose rating differs from that of the open segment closes the
    open segment at [timestamp - 1]: the result is that of the samples
    before, closed there, followed by that of the samples from this one on.
    When the sample has a rating, what follows begins with a segment that
    starts at its timestamp and has its rating; when it has none, no
    segment is opened and the result continues with that of the samples
    after it. Scenario A yields the two segments of the specification, from
    the merger and from [processVideo] on a three-frame video at one frame
    per second. *)
Theorem rating_change_closes_and_opens (norm : string -> string)
    (pre post : list Sample) (p s : Sample) (total : float) :
  last pre = Some p -> rating p <> "" -> rating s <> rating p ->
  mergeWith norm (pre ++ s :: post) total =
    mergeWith norm pre (timestamp s - 1)%float ++ mergeWith norm (s :: post) total /\
  (exists closed, last (mergeWith norm pre (timestamp s - 1)%float) = Some closed /\
                  End_ closed = (timestamp s - 1)%float /\
                  Rating closed = rating p) /\
  (rating s <> "" ->
   exists opened more, mergeWith norm (s :: post) total = opened :: more /\
                       Start opened = timestamp s /\ Rating opened = rating s) /\
  (rating s = "" ->
   mergeWith norm (s :: post) total = mergeWith norm post total) /\
  merge scenarioA 3 =
    [mkRatingResult 0 1 "6+" "forest, kids"; mkRatingResult 2 3 "12+" "fight"] /\
  processVideo (Opened (mkVideo 1 3 [mkFrame true (Classified "6+" "kids");
                                     mkFrame true (Classified "6+" "forest");
                                     mkFrame true (Classified "12+" "fight")]))
  = Returned [mkRatingResult 0 1 "6+" "forest, kids"; mkRatingResult 2 3 "12+" "fight"].
Proof.
  intros Hlast Hrated Hchange.
  split; [|split; [|split; [|split; [|split; vm_compute; reflexivity]]]].
  - apply mergeWith_split. intros p' Hp'. congruence.
  - now apply mergeWith_last.
  - apply mergeWith_first.
  - apply mergeWith_unrated_first.
Qed.

Lemma rating_change_closes_and_opens_witness :
  mergeWith normalNote
            ([mkSample 0 "6+" "kids"; mkSample 1 "6+" "forest"]
             ++ mkSample 2 "12+" "fight" :: []) 3
  = mergeWith normalNote [mkSample 0 "6+" "kids"; mkSample 1 "6+" "forest"] (2 - 1)%float
    ++ mergeWith normalNote [mkSample 2 "12+" "fight"] 3 /\
  exists opened more,
    mergeWith normalNote [mkSample 2 "12+" "fight"] 3 = opened :: more /\
    Start opened = 2%float /\ Rating opened = "12+".
Proof.
  pose proof (rating_change_closes_and_opens normalNote
                [mkSample 0 "6+" "kids"; mkSample 1 "6+" "forest"] []
                (mkSample 1 "6+" "forest") (mkSample 2 "12+" "fight") 3) as H.
  destruct H as (Hsplit & _ & Hopened & _).
  - reflexivity.
  - simpl. discriminate.
  - simpl. discriminate.
  - split; [exact Hsplit|]. apply Hopened. simpl. discriminate.
Defined.

(** C4 as stated fails when the sample that changes the rating has none:
    the sample at 1 closes the segment of the sample at 0 at [1 - 1], and no
    segment starts at 1. The merger and [processVideo] on a two-frame video
    at one frame per second return the one segment [0, 0]. *)
Lemma empty_rating_opens_no_segment :
  merge [mkSample 0 "6+" "kids"; mkSample 1 "" "fog"] 2
  = [mkRatingResult 0 0 "6+" "kids"] /\
  processVideo (Opened (mkVideo 1 2 [mkFrame true (Classified "6+" "kids");
                                     mkFrame true (Classified "" "fog")]))
  = Returned [mkRatingResult 0 0 "6+" "kids"].
Proof. split; vm_compute; reflexivity. Qed.

(** ** The frame loops and the merger *)


Lemma sampleLoop_merge (fps : float) (step : Z) (frames : list Frame) :
  F.to_int fps = Some step -> step <> 0 -> Forall classifies frames ->
  forall (i : Z) (st : MergeState),
    fst (sampleLoop fps frames i st) =
    Returned (emitOpen (mergeSamples st (classifiedSamples fps step frames i))
                       (F.of_int (i + Z.of_nat (length frames)) / fps)%float).
Proof.
  intros Hstep Hnz. induction 1 as [|f rest Hf Hrest IH]; intros i st.
  - simpl. now rewrite Z.add_0_r.
  - rewrite (sampleLoop_cons fps step) by assumption.
    replace (i + Z.of_nat (length (f :: rest)))
      with (i + 1 + Z.of_nat (length rest)) by (simpl length; lia).
    simpl classifiedSamples.
    destruct (Z.rem i step =? 0); simpl andb; [|apply IH].
    destruct (encodes f); simpl negb; cbv iota; [|apply IH].
    destruct (verdict f) as [r n | err] eqn:Hv; [|now destruct (Hf err)].
    specialize (IH (i + 1) (mergeStep st (F.of_int i / fps)%float r n)).
    destruct (sampleLoop fps rest (i + 1) (mergeStep st (F.of_int i / fps)%float r n)).
    exact IH.
Qed.

(** When no classifier call fails, [processVideo] returns what the merger
    makes of the classified samples, with the video's length as total
    duration. *)
Lemma processVideo_merge (video : Video) (step : Z) :
  let fps := defaultFps (VideoCaptureFPS video) in
  F.to_int fps = Some step -> step <> 0 -> Forall classifies (frames video) ->
  processVideo (Opened video) =
  Returned (merge (classifiedSamples fps step (frames video) 0)
                  (F.of_int (Z.of_nat (length (frames video))) / fps)%float).
Proof.
  intros fps Hstep Hnz Hall. unfold processVideo, analyze, merge.
  exact (sampleLoop_merge fps step (frames video) Hstep Hnz Hall 0 initState).
Qed.

(** The blur loop writes every frame below [totalFrames], blurred exactly
    when the decision is [Transform]. *)
Lemma blurLoop_lookup (ratings : list RatingResult) (age : Z) (fps : float)
    (totalFrames : Z) (frames : list Frame) :
  forall (i : Z) (n : nat),
    (n < length frames)%nat -> i + Z.of_nat n < totalFrames -> 0 <= i ->
    blurLoop frames i ratings age fps totalFrames !! n =
    Some (match blurDecision (F.of_int (i + Z.of_nat n) / fps)%float ratings age with
          | Transform => Blurred (i + Z.of_nat n)
          | _ => Unmodified (i + Z.of_nat n)
          end).
Proof.
  induction frames as [|f rest IH]; intros i n Hn Htotal Hi; simpl in Hn; [lia|].
  simpl. destruct (totalFrames <=? i) eqn:Hend; [apply Z.leb_le in Hend; lia|].
  destruct n as [|n].
  - simpl. rewrite Z.add_0_r. unfold blurDecision.
    now destruct (shouldBlur _ ratings age).
  - simpl. rewrite IH by lia. now replace (i + 1 + Z.of_nat n) with (i + Z.of_nat (S n)) by lia.
Qed.

(** The trim loop, when the frame rate gives a sampling step, writes
    exactly the frames below [totalFrames] whose decision is [Keep]. *)
Lemma trimLoop_written (sorted : list RatingResult) (age : Z) (fps : float)
    (totalFrames step : Z) (frames : list Frame) :
  F.to_int fps = Some step -> step <> 0 ->
  forall i : Z,
    exists written,
      trimLoop frames i sorted age fps totalFrames = Returned written /\
      forall k, In (Unmodified k) written <->
                i <= k < i + Z.of_nat (length frames) /\ k < totalFrames /\
                shouldInclude (F.of_int k / fps)%float sorted age = true.
Proof.
  intros Hstep Hnz. induction frames as [|f rest IH]; intros i.
  - exists []. split; [reflexivity|]. simpl. intros k. split; [intros [] | lia].
  - simpl trimLoop. destruct (totalFrames <=? i) eqn:Hend.
    + apply Z.leb_le in Hend. exists []. split; [reflexivity|].
      intros k. split; [intros [] | lia].
    + apply Z.leb_gt in Hend. rewrite Hstep.
      destruct (IH (i + 1)) as (written & -> & Hwritten).
      assert (Hlen : Z.of_nat (length (f :: rest)) = 1 + Z.of_nat (length rest))
        by (simpl length; lia).
      rewrite Hlen.
      eexists. split; [destruct step; [congruence | reflexivity | reflexivity]|].
      intros k. destruct (shouldInclude (F.of_int i / fps)%float sorted age) eqn:Hinc.
      * change (In (Unmodified k) (Unmodified i :: written))
          with (Unmodified i = Unmodified k \/ In (Unmodified k) written).
        rewrite Hwritten. split.
        -- intros [Heq | (H1 & H2 & H3)].
           ++ injection Heq as <-. split; [lia|]. split; [lia | exact Hinc].
           ++ split; [lia|]. split; [lia | exact H3].
        -- intros (H1 & H2 & H3). destruct (Z.eq_dec k i) as [-> | Hne]; [now left|].
           right. split; [lia|]. split; [lia | exact H3].
      * rewrite Hwritten. split.
        -- intros (H1 & H2 & H3). split; [lia|]. split; [lia | exact H3].
        -- intros (H1 & H2 & H3). destruct (Z.eq_dec k i) as [-> | Hne]; [congruence|].
           split; [lia|]. split; [lia | exact H3].
Qed.

(** * Further properties of the code *)

(** ** The merger: how many segments, and where they come from *)

Lemma closings_le_length (prev : string) (samples : list Sample) :
  (closings prev samples <= length samples)%nat.
Proof.
  revert prev. induction samples as [|s rest IH]; intros prev; simpl; [lia|].
  specialize (IH (rating s)).
  destruct (String.eqb (rating s) prev || String.eqb prev ""); lia.
Qed.

Lemma results_length_mergeSamples (samples : list Sample) (st : MergeState) :
  length (results (mergeSamples st samples)) =
  (length (results st) + closings (lastRating st) samples)%nat.
Proof.
  revert st. induction samples as [|s rest IH]; intros st; simpl; [lia|].
  rewrite IH, lastRating_mergeStep. unfold mergeStep, emitOpen.
  destruct (String.eqb (rating s) (lastRating st)); simpl; [lia|].
  destruct (String.eqb (lastRating st) ""); simpl; [lia|].
  rewrite length_app. simpl. lia.
Qed.

(** X1. The number of segments depends on the ratings alone: it is the
    number of samples whose rating differs from a non-empty rating just
    before them, plus one when the last sample has a rating. It never
    exceeds the number of samples. *)
Theorem segment_count (samples : list Sample) (total : float) :
  length (merge samples total) =
    (closings "" samples +
     match last samples with
     | Some s => if String.eqb (rating s) "" then 0 else 1
     | None => 0
     end)%nat /\
  (length (merge samples total) <= length samples)%nat.
Proof.
  assert (Hcount : length (merge samples total) =
    (closings "" samples +
     match last samples with
     | Some s => if String.eqb (rating s) "" then 0 else 1
     | None => 0
     end)%nat).
  { unfold merge, emitOpen. rewrite lastRating_mergeSamples.
    pose proof (results_length_mergeSamples samples initState) as Hlen.
    simpl in Hlen. destruct (last samples) as [s|]; simpl.
    - destruct (String.eqb (rating s) ""); [lia|].
      rewrite length_app. simpl. lia.
    - lia. }
  split; [exact Hcount|]. rewrite Hcount.
  destruct samples as [|s rest]; [simpl; lia|].
  simpl closings. simpl length.
  pose proof (closings_le_length (rating s) rest).
  rewrite orb_true_r.
  destruct (last (s :: rest)) as [z|]; [destruct (String.eqb (rating z) "")|]; lia.
Qed.

(** X2. Every segment of the merger starts at the timestamp of a sample and
    carries that sample's rating; it ends at the total duration or one time
    unit before the timestamp of a sample. *)
Theorem segment_provenance (samples : list Sample) (total : float)
    (seg : RatingResult) :
  In seg (merge samples total) ->
  (exists s, In s samples /\ Start seg = timestamp s /\ Rating seg = rating s) /\
  (End_ seg = total \/
   exists s, In s samples /\ End_ seg = (timestamp s - 1)%float).
Proof.
  set (P := fun (e : float) (z : RatingResult) =>
    (exists s, In s samples /\ Start z = timestamp s /\ Rating z = rating s) /\
    (End_ z = e \/ exists s, In s samples /\ End_ z = (timestamp s - 1)%float)).
  set (Q := fun z : RatingResult =>
    (exists s, In s samples /\ Start z = timestamp s /\ Rating z = rating s) /\
    exists s, In s samples /\ End_ z = (timestamp s - 1)%float).
  assert (Hloop : forall rest st,
    (forall s, In s rest -> In s samples) ->
    Forall Q (results st) ->
    (lastRating st <> "" ->
     exists s, In s samples /\ startTime st = timestamp s /\ lastRating st = rating s) ->
    Forall Q (results (mergeSamples st rest)) /\
    (lastRating (mergeSamples st rest) <> "" ->
     exists s, In s samples /\ startTime (mergeSamples st rest) = timestamp s /\
               lastRating (mergeSamples st rest) = rating s)).
  { induction rest as [|s rest IH]; intros st Hin Hres Hopen; [auto|].
    simpl. apply IH; [intros s' Hs'; apply Hin; now right | |].
    - unfold mergeStep, emitOpen.
      destruct (String.eqb (rating s) (lastRating st)); simpl; [exact Hres|].
      destruct (String.eqb (lastRating st) "") eqn:He; [exact Hres|].
      apply String.eqb_neq in He. apply Forall_app. split; [exact Hres|].
      constructor; [|constructor]. split; simpl.
      + apply (Hopen He).
      + exists s. split; [apply Hin; now left | reflexivity].
    - unfold mergeStep.
      destruct (String.eqb (rating s) (lastRating st)) eqn:Hsame; simpl; [exact Hopen|].
      intros _. exists s. split; [apply Hin; now left | auto]. }
  intros Hin. destruct (Hloop samples initState) as [Hres Hopen].
  - auto.
  - constructor.
  - intros H. now destruct H.
  - unfold merge, emitOpen in Hin.
    destruct (String.eqb (lastRating (mergeSamples initState samples)) "") eqn:He.
    + rewrite Forall_forall in Hres. apply list_elem_of_In in Hin.
      destruct (Hres seg Hin) as [H1 H2]. split; [exact H1 | now right].
    + apply in_app_or in Hin. destruct Hin as [Hin | [<- | []]].
      * rewrite Forall_forall in Hres. apply list_elem_of_In in Hin.
        destruct (Hres seg Hin) as [H1 H2]. split; [exact H1 | now right].
      * apply String.eqb_neq in He. split; [exact (Hopen He) | now left].
Qed.

Lemma segment_provenance_witness :
  (exists s, In s scenarioA /\
             Start (mkRatingResult 2 3 "12+" "fight") = timestamp s /\
             Rating (mkRatingResult 2 3 "12+" "fight") = rating s) /\
  (End_ (mkRatingResult 2 3 "12+" "fight") = 3%float \/
   exists s, In s scenarioA /\
             End_ (mkRatingResult 2 3 "12+" "fight") = (timestamp s - 1)%float).
Proof.
  apply (segment_provenance scenarioA 3 (mkRatingResult 2 3 "12+" "fight")).
  vm_compute. right. now left.
Defined.

(** X3. When every sample has a rating, two consecutive segments never
    have the same rating: the segments are the maximal runs. *)
Theorem consecutive_segments_differ (samples : list Sample) (total : float) :
  (forall s, In s samples -> rating s <> "") ->
  Sorted (fun a b => Rating a <> Rating b) (merge samples total).
Proof.
  set (R := fun a b : RatingResult => Rating a <> Rating b).
  set (I := fun st : MergeState =>
    Sorted R (results st) /\
    (forall z, last (results st) = Some z -> Rating z <> lastRating st) /\
    (lastRating st = "" -> results st = [])).
  assert (Hemit : forall st e, I st -> lastRating st <> "" ->
                               Sorted R (results st ++ [closedSegment st e])).
  { intros st e (Hsorted & Hlast & _) Hopen. apply Sorted_snoc; [exact Hsorted|].
    destruct (last (results st)) as [z|] eqn:Hz.
    - apply last_Some in Hz as Hz'. destruct Hz' as [l' Heq]. rewrite Heq.
      constructor. unfold R, closedSegment. simpl. exact (Hlast z eq_refl).
    - apply last_None in Hz. rewrite Hz. constructor. }
  assert (Hloop : forall rest st,
    (forall s, In s rest -> rating s <> "") -> I st -> I (mergeSamples st rest)).
  { induction rest as [|s rest IH]; intros st Hrated HI; [exact HI|].
    simpl. apply IH; [intros s' Hs'; apply Hrated; now right|].
    assert (Hs : rating s <> "") by (apply Hrated; now left).
    pose proof HI as (Hsorted & Hlast & Hnil).
    unfold mergeStep.
    destruct (String.eqb (rating s) (lastRating st)) eqn:Hsame.
    - split; [exact Hsorted|]. split; [exact Hlast | exact Hnil].
    - apply String.eqb_neq in Hsame. unfold emitOpen.
      destruct (String.eqb (lastRating st) "") eqn:He.
      + apply String.eqb_eq in He. split; [exact Hsorted|]. split; simpl.
        * intros z Hz. rewrite (Hnil He) in Hz. discriminate.
        * intros Hr. contradiction.
      + apply String.eqb_neq in He. split; [now apply Hemit|]. split; simpl.
        * intros z Hz. rewrite last_snoc in Hz. injection Hz as <-.
          unfold closedSegment. simpl. congruence.
        * intros Hr. contradiction. }
  intros Hrated.
  assert (HI : I (mergeSamples initState samples)).
  { apply Hloop; [exact Hrated|]. split; [constructor|].
    split; [intros z Hz; discriminate | reflexivity]. }
  unfold merge, emitOpen.
  destruct (String.eqb (lastRating (mergeSamples initState samples)) "") eqn:He.
  - apply HI.
  - apply String.eqb_neq in He. now apply Hemit.
Qed.

Lemma consecutive_segments_differ_witness :
  Sorted (fun a b => Rating a <> Rating b) (merge scenarioA 3).
Proof.
  apply consecutive_segments_differ.
  intros s [<- | [<- | [<- | []]]]; simpl; discriminate.
Defined.

(** ** The merger: the notes string *)

Lemma lower_byte_not_comma (c : ascii) :
  c <> ","%char -> Strings.lower_byte c <> ","%char.
Proof.
  destruct c as [[] [] [] [] [] [] [] []];
    try (intros _; discriminate); intros H; exact H.
Qed.

Lemma lower_byte_idem (c : ascii) :
  Strings.lower_byte (Strings.lower_byte c) = Strings.lower_byte c.
Proof. destruct c as [[] [] [] [] [] [] [] []]; reflexivity. Qed.

Lemma ToLower_idem (s : string) :
  Strings.ToLower (Strings.ToLower s) = Strings.ToLower s.
Proof.
  induction s as [|c rest IH]; [reflexivity|].
  simpl. now rewrite lower_byte_idem, IH.
Qed.

Lemma noComma_ToLower (s : string) : noComma s -> noComma (Strings.ToLower s).
Proof.
  induction s as [|c rest IH]; [auto|].
  simpl. intros [Hc Hrest]. split; [now apply lower_byte_not_comma | auto].
Qed.

Lemma noComma_TrimLeft (s : string) : noComma s -> noComma (Strings.TrimLeft s).
Proof.
  induction s as [|c rest IH]; [auto|].
  simpl. intros [Hc Hrest]. destruct (Strings.is_space c); simpl; auto.
Qed.

Lemma noComma_TrimRight (s : string) : noComma s -> noComma (Strings.TrimRight s).
Proof.
  induction s as [|c rest IH]; [auto|].
  simpl. intros [Hc Hrest]. specialize (IH Hrest).
  destruct (Strings.TrimRight rest).
  - destruct (Strings.is_space c); simpl; auto.
  - simpl in *. auto.
Qed.

Lemma TrimRight_idem (s : string) :
  Strings.TrimRight (Strings.TrimRight s) = Strings.TrimRight s.
Proof.
  induction s as [|c rest IH]; [reflexivity|].
  simpl. destruct (Strings.TrimRight rest) as [|k kept] eqn:Hk.
  - destruct (Strings.is_space c) eqn:Hc; simpl; [reflexivity|]. now rewrite Hc.
  - change (Strings.TrimRight (String c (String k kept)))
      with (match Strings.TrimRight (String k kept) with
            | EmptyString => if Strings.is_space c then EmptyString
                             else String c EmptyString
            | String _ _ as keep => String c keep
            end).
    now rewrite IH.
Qed.

(** A string that does not begin with white space. *)
Lemma TrimLeft_fixed (s : string) :
  match s with
  | EmptyString => True
  | String c _ => Strings.is_space c = false
  end ->
  Strings.TrimLeft s = s.
Proof. destruct s as [|c rest]; [auto|]. simpl. now intros ->. Qed.

Lemma TrimLeft_head (s : string) :
  match Strings.TrimLeft s with
  | EmptyString => True
  | String c _ => Strings.is_space c = false
  end.
Proof.
  induction s as [|c rest IH]; [exact I|].
  simpl. destruct (Strings.is_space c) eqn:Hc; [exact IH | exact Hc].
Qed.

Lemma TrimRight_head (s : string) :
  match s with
  | EmptyString => True
  | String c _ => Strings.is_space c = false
  end ->
  match Strings.TrimRight s with
  | EmptyString => True
  | String c _ => Strings.is_space c = false
  end.
Proof.
  destruct s as [|c rest]; [auto|]. simpl. intros Hc.
  destruct (Strings.TrimRight rest); [now rewrite Hc | exact Hc].
Qed.

Lemma TrimSpace_idem (s : string) :
  Strings.TrimSpace (Strings.TrimSpace s) = Strings.TrimSpace s.
Proof.
  unfold Strings.TrimSpace.
  rewrite (TrimLeft_fixed (Strings.TrimRight (Strings.TrimLeft s))).
  - apply TrimRight_idem.
  - apply TrimRight_head, TrimLeft_head.
Qed.

Lemma normalNote_idem (note : string) :
  normalNote (normalNote note) = normalNote note.
Proof.
  unfold normalNote.
  now rewrite <- (TrimSpace_ToLower (Strings.ToLower note)), ToLower_idem,
    TrimSpace_idem.
Qed.

Lemma noComma_normalNote (note : string) : noComma note -> noComma (normalNote note).
Proof.
  intros H. unfold normalNote, Strings.TrimSpace.
  now apply noComma_TrimRight, noComma_TrimLeft, noComma_ToLower.
Qed.

Lemma Split_pieces_noComma (s : string) : Forall noComma (Strings.Split s ",").
Proof.
  induction s as [|c rest IH]; simpl; [repeat constructor|].
  destruct (Ascii.eqb c ",") eqn:Hc.
  - constructor; [exact I | exact IH].
  - apply Ascii.eqb_neq in Hc.
    destruct (Strings.Split rest ",") as [|tok toks].
    + repeat constructor; assumption.
    + apply Forall_cons in IH as [Htok Htoks].
      constructor; [split; assumption | exact Htoks].
Qed.

Lemma Split_noComma (s : string) : noComma s -> Strings.Split s "," = [s].
Proof.
  induction s as [|c rest IH]; [reflexivity|].
  simpl. intros [Hc Hrest]. rewrite (proj2 (Ascii.eqb_neq c ",") Hc).
  now rewrite (IH Hrest).
Qed.

Lemma Split_app_comma (a b : string) :
  noComma a ->
  Strings.Split (a ++ String "," b)%string "," = a :: Strings.Split b ",".
Proof.
  induction a as [|c rest IH]; [reflexivity|].
  simpl. intros [Hc Hrest]. rewrite (proj2 (Ascii.eqb_neq c ",") Hc).
  now rewrite (IH Hrest).
Qed.

(** The pieces of a joined list: the first token, then every other token
    after the space of the separator. *)
Lemma Split_Join_tail (t : string) (ts : list string) :
  Forall noComma (t :: ts) ->
  Strings.Split (String " " (Strings.Join (t :: ts) ", ")) "," =
  map (String " ") (t :: ts).
Proof.
  revert t. induction ts as [|t' ts IH]; intros t Hall.
  - apply Forall_cons in Hall as [Ht _]. simpl.
    apply (Split_noComma (String " " t)). split; [discriminate | exact Ht].
  - apply Forall_cons in Hall as [Ht Hrest].
    change (Strings.Join (t :: t' :: ts) ", ")
      with (t ++ String "," (String " " (Strings.Join (t' :: ts) ", ")))%string.
    change (String " " (t ++ String "," (String " " (Strings.Join (t' :: ts) ", "))))%string
      with (String " " t ++ String "," (String " " (Strings.Join (t' :: ts) ", ")))%string.
    rewrite Split_app_comma by (split; [discriminate | exact Ht]).
    now rewrite (IH t' Hrest).
Qed.

Lemma Split_Join (t : string) (ts : list string) :
  Forall noComma (t :: ts) ->
  Strings.Split (Strings.Join (t :: ts) ", ") "," = t :: map (String " ") ts.
Proof.
  intros Hall. apply Forall_cons in Hall as [Ht Hrest].
  destruct ts as [|t' ts]; [now apply Split_noComma|].
  change (Strings.Join (t :: t' :: ts) ", ")
    with (t ++ String "," (String " " (Strings.Join (t' :: ts) ", ")))%string.
  rewrite Split_app_comma by exact Ht.
  now rewrite Split_Join_tail.
Qed.

Lemma cleanToken_spec_form (tok : string) :
  cleanToken tok -> Strings.ToLower (Strings.TrimSpace tok) = tok.
Proof.
  intros (_ & _ & _ & Hnorm). unfold normalNote in Hnorm.
  now rewrite <- TrimSpace_ToLower.
Qed.

(** Parsing a joined list of clean tokens gives the list back. *)
Lemma specTokens_Join (l : list string) :
  Forall cleanToken l -> specTokens (Strings.Join l ", ") = l.
Proof.
  intros Hclean. destruct l as [|t ts]; [reflexivity|].
  unfold specTokens. rewrite Split_Join.
  - assert (Hkeep : forall l', Forall cleanToken l' ->
      List.filter (fun tok => negb (String.eqb tok "") && negb (String.eqb tok "none")) l'
      = l').
    { induction 1 as [|x l' (Hx1 & Hx2 & _) _ IH]; [reflexivity|].
      simpl. now rewrite (eqb_false_of_ne _ _ Hx1), (eqb_false_of_ne _ _ Hx2), IH. }
    assert (Hmap : forall l', Forall cleanToken l' ->
      map (fun tok => Strings.ToLower (Strings.TrimSpace tok)) (map (String " ") l') = l').
    { induction 1 as [|x l' Hx _ IH]; [reflexivity|].
      simpl map. rewrite IH. f_equal.
      change (Strings.TrimSpace (String " " x)) with (Strings.TrimSpace x).
      now apply cleanToken_spec_form. }
    apply Forall_cons in Hclean as Hc. destruct Hc as [Ht Hts].
    simpl map. rewrite (Hmap ts Hts), (cleanToken_spec_form t Ht).
    now apply Hkeep.
  - eapply Forall_impl; [exact Hclean|]. now intros x (_ & _ & Hx & _).
Qed.

Lemma specTokens_clean (notes tok : string) :
  In tok (specTokens notes) -> cleanToken tok.
Proof.
  unfold specTokens. intros Hin. apply filter_In in Hin as [Hin Hok].
  apply in_map_iff in Hin as (piece & <- & Hpiece).
  apply andb_true_iff in Hok as [H1 H2].
  apply negb_true_iff in H1, H2.
  apply String.eqb_neq in H1, H2.
  assert (Hnc : noComma piece).
  { pose proof (Split_pieces_noComma notes) as Hall.
    rewrite Forall_forall in Hall. apply Hall. now apply list_elem_of_In. }
  rewrite <- TrimSpace_ToLower in *.
  split; [exact H1|]. split; [exact H2|].
  split; [now apply noComma_normalNote | apply normalNote_idem].
Qed.

(** X4. When the notes of the samples are ASCII strings, where the
    byte-level trimming and lower-casing are the library's, the notes
    string of a segment parses back: split on commas and normalised as the
    merger does, it gives a sorted list without duplicates whose join by
    ", " is the notes string again, and every token in it comes from the
    notes of a sample with the segment's rating. *)
Theorem notes_parse_back (samples : list Sample) (total : float)
    (seg : RatingResult) :
  (forall s, In s samples -> asciiOnly (notes s)) ->
  In seg (merge samples total) ->
  let tokens := specTokens (Notes seg) in
  Strings.Join tokens ", " = Notes seg /\
  Sorted Strings.le tokens /\ NoDup tokens /\
  (forall tok, In tok tokens ->
     exists s, In s samples /\ rating s = Rating seg /\
               In tok (specTokens (notes s))).
Proof.
  set (noted := fun (r : string) (S : gset string) =>
    forall tok, tok ∈ S ->
      exists s, In s samples /\ rating s = r /\ In tok (specTokens (notes s))).
  set (W := fun z : RatingResult =>
    exists S : gset string, Notes z = notesStr S /\ noted (Rating z) S).
  assert (Hadd : forall (s : Sample) (S : gset string),
    In s samples -> noted (rating s) S -> noted (rating s) (addNotes S (notes s))).
  { intros s S Hs HS tok Htok. rewrite addNotes_tokens in Htok.
    apply elem_of_union in Htok as [Htok | Htok]; [|now apply HS].
    apply elem_of_list_to_set, list_elem_of_In in Htok. exists s. auto. }
  assert (Hloop : forall rest st,
    (forall s, In s rest -> In s samples) ->
    Forall W (results st) -> noted (lastRating st) (combinedNotes st) ->
    Forall W (results (mergeSamples st rest)) /\
    noted (lastRating (mergeSamples st rest)) (combinedNotes (mergeSamples st rest))).
  { induction rest as [|s rest IH]; intros st Hin Hres Hopen; [auto|].
    simpl. assert (Hs : In s samples) by (apply Hin; now left).
    apply IH; [intros s' Hs'; apply Hin; now right | |].
    - unfold mergeStep, emitOpen.
      destruct (String.eqb (rating s) (lastRating st)); simpl; [exact Hres|].
      destruct (String.eqb (lastRating st) ""); [exact Hres|].
      apply Forall_app. split; [exact Hres|]. constructor; [|constructor].
      exists (combinedNotes st). split; [reflexivity | exact Hopen].
    - unfold mergeStep.
      destruct (String.eqb (rating s) (lastRating st)) eqn:Hsame; simpl.
      + apply String.eqb_eq in Hsame. rewrite <- Hsame in *. now apply Hadd.
      + apply Hadd; [exact Hs|]. intros tok Htok. set_solver. }
  intros _ Hin tokens.
  assert (HW : W seg).
  { destruct (Hloop samples initState) as [Hres Hopen].
    - auto.
    - constructor.
    - intros tok Htok. set_solver.
    - unfold merge, emitOpen in Hin.
      destruct (String.eqb (lastRating (mergeSamples initState samples)) "").
      + rewrite Forall_forall in Hres. apply Hres. now apply list_elem_of_In.
      + apply in_app_or in Hin. destruct Hin as [Hin | [<- | []]].
        * rewrite Forall_forall in Hres. apply Hres. now apply list_elem_of_In.
        * eexists. split; [reflexivity | exact Hopen]. }
  destruct HW as (S & HNotes & HS).
  assert (Hmem : forall tok, In tok (Strings.SortStrings (elements S)) <-> tok ∈ S).
  { intros tok. unfold Strings.SortStrings.
    now rewrite <- list_elem_of_In, merge_sort_Permutation, elem_of_elements. }
  assert (Htokens : tokens = Strings.SortStrings (elements S)).
  { unfold tokens. rewrite HNotes. unfold notesStr. apply specTokens_Join.
    apply Forall_forall. intros tok Htok.
    apply list_elem_of_In, Hmem, HS in Htok as (s & _ & _ & Htok).
    now apply (specTokens_clean (notes s)). }
  rewrite Htokens. split; [now rewrite HNotes|].
  split; [apply Sorted_merge_sort, strings_le_total|].
  split.
  - unfold Strings.SortStrings. rewrite merge_sort_Permutation. apply NoDup_elements.
  - intros tok Htok. apply HS. now apply Hmem.
Qed.

Lemma notes_parse_back_witness :
  let seg := mkRatingResult 0 1 "6+" "forest, kids" in
  Strings.Join (specTokens (Notes seg)) ", " = Notes seg.
Proof.
  intros seg.
  apply (notes_parse_back scenarioA 3 seg).
  - intros s [<- | [<- | [<- | []]]]; simpl; repeat split.
  - vm_compute. now left.
Defined.

(** ** The analyzer: sampling *)

Lemma sampleLoop_calls (fps : float) (step : Z) (frames : list Frame) :
  F.to_int fps = Some step -> step <> 0 ->
  forall (i : Z) (st : MergeState) (k : Z),
    In k (snd (sampleLoop fps frames i st)) ->
    i <= k /\ Z.rem k step = 0 /\
    exists f, frames !! Z.to_nat (k - i) = Some f /\ encodes f = true.
Proof.
  intros Hstep Hnz. induction frames as [|f rest IH]; intros i st k Hk.
  - simpl in Hk. destruct Hk.
  - rewrite (sampleLoop_cons fps step) in Hk by assumption.
    assert (Hlater : forall st', In k (snd (sampleLoop fps rest (i + 1) st')) ->
      i <= k /\ Z.rem k step = 0 /\
      exists g, (f :: rest) !! Z.to_nat (k - i) = Some g /\ encodes g = true).
    { intros st' Hin. destruct (IH (i + 1) st' k Hin) as (H1 & H2 & g & Hg & Henc).
      split; [lia|]. split; [exact H2|]. exists g. split; [|exact Henc].
      replace (Z.to_nat (k - i)) with (S (Z.to_nat (k - (i + 1)))) by lia.
      exact Hg. }
    destruct (Z.rem i step =? 0) eqn:Hrem; [|now apply (Hlater st)].
    apply Z.eqb_eq in Hrem.
    destruct (encodes f) eqn:Henc; simpl negb in Hk; cbv iota in Hk;
      [|now apply (Hlater st)].
    assert (Hhere : i <= i /\ Z.rem i step = 0 /\
              exists g, (f :: rest) !! Z.to_nat (i - i) = Some g /\ encodes g = true).
    { split; [lia|]. split; [exact Hrem|]. exists f.
      rewrite Z.sub_diag. simpl. auto. }
    destruct (verdict f) as [r n | err].
    + destruct (sampleLoop fps rest (i + 1) (mergeStep st (F.of_int i / fps)%float r n))
        as [out calls] eqn:Hloop.
      simpl in Hk. destruct Hk as [<- | Hk]; [exact Hhere|].
      apply (Hlater (mergeStep st (F.of_int i / fps)%float r n)). now rewrite Hloop.
    + simpl in Hk. destruct Hk as [<- | []]. exact Hhere.
Qed.

Lemma sampleLoop_calls_complete (fps : float) (step : Z) (frames : list Frame) :
  F.to_int fps = Some step -> step <> 0 -> Forall classifies frames ->
  forall (i : Z) (st : MergeState) (n : nat) (f : Frame),
    frames !! n = Some f -> Z.rem (i + Z.of_nat n) step = 0 -> encodes f = true ->
    In (i + Z.of_nat n) (snd (sampleLoop fps frames i st)).
Proof.
  intros Hstep Hnz. induction 1 as [|g rest Hg Hrest IH]; intros i st n f Hn Hrem Henc.
  - discriminate.
  - rewrite (sampleLoop_cons fps step) by assumption.
    assert (Hlater : forall st' m, n = S m ->
              In (i + Z.of_nat n) (snd (sampleLoop fps rest (i + 1) st'))).
    { intros st' m ->. simpl in Hn.
      replace (i + Z.of_nat (S m)) with (i + 1 + Z.of_nat m) in * by lia.
      now apply (IH (i + 1) st' m f). }
    destruct n as [|m].
    + simpl in Hn. injection Hn as ->. rewrite Z.add_0_r in *.
      rewrite Hrem, Henc. simpl.
      destruct (verdict f) as [r nt | err] eqn:Hv; [|now destruct (Hg err)].
      destruct (sampleLoop fps rest (i + 1) (mergeStep st (F.of_int i / fps)%float r nt)).
      simpl. now left.
    + destruct (Z.rem i step =? 0); [|now apply (Hlater st m)].
      destruct (negb (encodes g)); [now apply (Hlater st m)|].
      destruct (verdict g) as [r nt | err] eqn:Hv; [|now destruct (Hg err)].
      specialize (Hlater (mergeStep st (F.of_int i / fps)%float r nt) m eq_refl).
      destruct (sampleLoop fps rest (i + 1) (mergeStep st (F.of_int i / fps)%float r nt)).
      simpl in *. now right.
Qed.

(** X5. When the frame rate gives a sampling step and no classifier call
    fails, [processVideo] returns what the merger makes of the classified
    samples (the frames at multiples of the step that encode, at
    [index / fps]), closed at [frames / fps]. *)
Theorem analyzer_merges_the_samples (video : Video) (step : Z) :
  let fps := defaultFps (VideoCaptureFPS video) in
  F.to_int fps = Some step -> step <> 0 -> Forall classifies (frames video) ->
  processVideo (Opened video) =
  Returned (merge (classifiedSamples fps step (frames video) 0)
                  (F.of_int (Z.of_nat (length (frames video))) / fps)%float).
Proof. exact (processVideo_merge video step). Qed.

Lemma analyzer_merges_the_samples_witness :
  let video := mkVideo 2 4 [mkFrame true (Classified "6+" "kids");
                            mkFrame true (Classified "18+" "gore");
                            mkFrame false (Classified "18+" "gore");
                            mkFrame true (Classified "18+" "gore")] in
  processVideo (Opened video) =
  Returned (merge (classifiedSamples 2 2 (frames video) 0)
                  (F.of_int (Z.of_nat (length (frames video))) / 2)%float).
Proof.
  intros video. apply (analyzer_merges_the_samples video 2).
  - reflexivity.
  - discriminate.
  - repeat constructor; intros err; discriminate.
Defined.

(** X6. The classifier is called only on frames whose index is a multiple
    of [int(fps)] and that encode; when no call fails it is called on every
    such frame. *)
Theorem classifier_calls_are_the_samples (video : Video) (step : Z) :
  F.to_int (defaultFps (VideoCaptureFPS video)) = Some step -> step <> 0 ->
  (forall k, In k (classifierCalls (Opened video)) ->
     0 <= k /\ Z.rem k step = 0 /\
     exists f, frames video !! Z.to_nat k = Some f /\ encodes f = true) /\
  (Forall classifies (frames video) ->
   forall (n : nat) (f : Frame),
     frames video !! n = Some f -> Z.rem (Z.of_nat n) step = 0 -> encodes f = true ->
     In (Z.of_nat n) (classifierCalls (Opened video))).
Proof.
  intros Hstep Hnz. unfold classifierCalls, analyze. split.
  - intros k Hk.
    destruct (sampleLoop_calls _ step (frames video) Hstep Hnz 0 initState k Hk)
      as (H1 & H2 & f & Hf & Henc).
    rewrite Z.sub_0_r in Hf. eauto.
  - intros Hall n f Hn Hrem Henc.
    exact (sampleLoop_calls_complete _ step (frames video) Hstep Hnz Hall
             0 initState n f Hn Hrem Henc).
Qed.

Lemma classifier_calls_are_the_samples_witness :
  let video := mkVideo 2 4 [mkFrame true (Classified "6+" "kids");
                            mkFrame true (Classified "18+" "gore");
                            mkFrame true (Classified "18+" "gore")] in
  In 2 (classifierCalls (Opened video)).
Proof.
  intros video.
  refine (proj2 (classifier_calls_are_the_samples video 2 _ _) _ 2%nat
            (mkFrame true (Classified "18+" "gore")) _ _ _);
    try reflexivity; try discriminate.
  repeat constructor; intros err; discriminate.
Defined.

(** X7. A frame rate below one frame per second makes [int(fps)] zero:
    [processVideo] panics on the first frame of a video that has one,
    before any classifier call, and so does the trim loop on the first
    frame it may write. *)
Theorem zero_step_panics (video : Video) (ratings : list RatingResult)
    (age totalFrames : Z) :
  F.to_int (defaultFps (VideoCaptureFPS video)) = Some 0 -> frames video <> [] ->
  processVideo (Opened video) = Panicked /\
  classifierCalls (Opened video) = [] /\
  (0 < totalFrames ->
   trimInappropriateContent (frames video) ratings age
     (defaultFps (VideoCaptureFPS video)) totalFrames = Panicked).
Proof.
  intros Hzero Hframes. unfold processVideo, classifierCalls, analyze,
    trimInappropriateContent.
  destruct (frames video) as [|f rest]; [contradiction|].
  simpl. rewrite Hzero. repeat split.
  intros Htotal. destruct (totalFrames <=? 0) eqn:Hend; [|reflexivity].
  apply Z.leb_le in Hend. lia.
Qed.

Lemma zero_step_panics_witness :
  processVideo (Opened (mkVideo 0.5 3 [mkFrame true (Classified "6+" "kids")]))
  = Panicked.
Proof.
  refine (proj1 (zero_step_panics
                   (mkVideo 0.5 3 [mkFrame true (Classified "6+" "kids")]) [] 12 3 _ _)).
  - reflexivity.
  - discriminate.
Defined.

(** ** The editor: what the loops write *)

Lemma blurLoop_closed_form (ratings : list RatingResult) (age : Z) (fps : float)
    (totalFrames : Z) (frames : list Frame) :
  forall i : Z,
    blurLoop frames i ratings age fps totalFrames =
    map (fun n : nat =>
           if shouldBlur (F.of_int (i + Z.of_nat n) / fps)%float ratings age
           then Blurred (i + Z.of_nat n) else Unmodified (i + Z.of_nat n))
        (seq 0 (Nat.min (length frames) (Z.to_nat (totalFrames - i)))).
Proof.
  induction frames as [|f rest IH]; intros i; [reflexivity|].
  simpl blurLoop. destruct (totalFrames <=? i) eqn:Hend.
  - apply Z.leb_le in Hend.
    replace (Z.to_nat (totalFrames - i)) with O by lia.
    now rewrite Nat.min_0_r.
  - apply Z.leb_gt in Hend.
    replace (Z.to_nat (totalFrames - i)) with (S (Z.to_nat (totalFrames - (i + 1)))) by lia.
    simpl length. rewrite <- Nat.succ_min_distr. simpl seq. simpl map.
    rewrite Z.add_0_r. f_equal.
    rewrite IH, <- seq_shift, map_map. apply map_ext. intros n.
    now replace (i + 1 + Z.of_nat n) with (i + Z.of_nat (S n)) by lia.
Qed.

(** X8. Blur mode writes one frame for every frame read below
    [totalFrames], in order, blurred exactly when the decision for its
    timestamp is to blur: no frame is dropped, repeated or reordered. *)
Theorem blur_writes_every_frame (frames : list Frame) (ratings : list RatingResult)
    (age : Z) (fps : float) (totalFrames : Z) :
  blurInappropriateContent frames ratings age fps totalFrames =
  Returned
    (map (fun n : nat =>
            if shouldBlur (F.of_int (Z.of_nat n) / fps)%float ratings age
            then Blurred (Z.of_nat n) else Unmodified (Z.of_nat n))
         (seq 0 (Nat.min (length frames) (Z.to_nat totalFrames)))).
Proof.
  unfold blurInappropriateContent. rewrite blurLoop_closed_form.
  now rewrite Z.sub_0_r.
Qed.

Lemma trimLoop_shape (sorted : list RatingResult) (age : Z) (fps : float)
    (totalFrames : Z) (frames : list Frame) :
  forall (i : Z) (written : list Written),
    trimLoop frames i sorted age fps totalFrames = Returned written ->
    Forall (fun w => exists k, w = Unmodified k /\ i <= k) written /\
    Sorted Z.lt (map writtenIndex written).
Proof.
  induction frames as [|f rest IH]; intros i written Hrun.
  - injection Hrun as <-. split; constructor.
  - simpl in Hrun. destruct (totalFrames <=? i).
    + injection Hrun as <-. split; constructor.
    + destruct (F.to_int fps) as [[|p|p]|]; try discriminate.
      * destruct (trimLoop rest (i + 1) sorted age fps totalFrames) as [w| | |] eqn:Hrest;
          try discriminate.
        injection Hrun as <-. destruct (IH (i + 1) w Hrest) as [Hall Hsorted].
        assert (Hall' : Forall (fun w => exists k, w = Unmodified k /\ i <= k) w).
        { eapply Forall_impl; [exact Hall|]. intros x (k & -> & Hk). exists k. split; [auto | lia]. }
        destruct (shouldInclude _ sorted age); [|auto].
        split; [constructor; [exists i; split; [auto | lia] | exact Hall']|].
        simpl. constructor; [exact Hsorted|].
        destruct w as [|x w']; constructor.
        apply Forall_cons in Hall as [(k & -> & Hk) _]. simpl. lia.
      * destruct (trimLoop rest (i + 1) sorted age fps totalFrames) as [w| | |] eqn:Hrest;
          try discriminate.
        injection Hrun as <-. destruct (IH (i + 1) w Hrest) as [Hall Hsorted].
        assert (Hall' : Forall (fun w => exists k, w = Unmodified k /\ i <= k) w).
        { eapply Forall_impl; [exact Hall|]. intros x (k & -> & Hk). exists k. split; [auto | lia]. }
        destruct (shouldInclude _ sorted age); [|auto].
        split; [constructor; [exists i; split; [auto | lia] | exact Hall']|].
        simpl. constructor; [exact Hsorted|].
        destruct w as [|x w']; constructor.
        apply Forall_cons in Hall as [(k & -> & Hk) _]. simpl. lia.
Qed.

(** X9. When the frame rate gives a non-zero [int(fps)], trim mode returns
    and writes exactly the frames below [totalFrames] whose decision is to
    keep them, each unblurred and in increasing frame order. *)
Theorem trim_writes_the_kept_frames (frames : list Frame) (ratings : list RatingResult)
    (age : Z) (fps : float) (totalFrames step : Z) :
  F.to_int fps = Some step -> step <> 0 ->
  exists written,
    trimInappropriateContent frames ratings age fps totalFrames = Returned written /\
    (forall w, In w written -> exists k, w = Unmodified k) /\
    Sorted Z.lt (map writtenIndex written) /\
    (forall k, In (Unmodified k) written <->
               0 <= k < Z.of_nat (length frames) /\ k < totalFrames /\
               trimDecision (F.of_int k / fps)%float ratings age = Keep).
Proof.
  intros Hstep Hnz. unfold trimInappropriateContent.
  destruct (trimLoop_written (sortByStart ratings) age fps totalFrames step frames
              Hstep Hnz 0) as (written & Hrun & Hmem).
  exists written. split; [exact Hrun|].
  destruct (trimLoop_shape _ _ _ _ _ _ _ Hrun) as [Hall Hsorted].
  split; [|split; [exact Hsorted|]].
  - intros w Hw. rewrite Forall_forall in Hall.
    apply list_elem_of_In in Hw. destruct (Hall w Hw) as (k & -> & _). eauto.
  - intros k. rewrite Hmem. unfold trimDecision.
    destruct (shouldInclude (F.of_int k / fps)%float (sortByStart ratings) age);
      split; intros (H1 & H2 & H3); repeat split; try lia; try reflexivity;
      discriminate.
Qed.

Lemma trim_writes_the_kept_frames_witness :
  exists written,
    trimInappropriateContent
      [mkFrame true (Classified "" ""); mkFrame true (Classified "" "")]
      [mkRatingResult 0 0 "6+" ""; mkRatingResult 1 2 "18+" ""] 12 1 2
    = Returned written /\
    (forall w, In w written -> exists k, w = Unmodified k) /\
    Sorted Z.lt (map writtenIndex written) /\
    (forall k, In (Unmodified k) written <->
               0 <= k < Z.of_nat (length [mkFrame true (Classified "" "");
                                          mkFrame true (Classified "" "")]) /\
               k < 2 /\
               trimDecision (F.of_int k / 1)%float
                 [mkRatingResult 0 0 "6+" ""; mkRatingResult 1 2 "18+" ""] 12 = Keep).
Proof.
  apply (trim_writes_the_kept_frames _ _ 12 1 2 1); [reflexivity | discriminate].
Defined.

(** X10. Raising the target age never blurs or drops a frame that was kept
    at the lower age. *)
Theorem higher_age_keeps_more (t : float) (ratings : list RatingResult)
    (age age' : Z) :
  age <= age' ->
  (blurDecision t ratings age = Keep -> blurDecision t ratings age' = Keep) /\
  (trimDecision t ratings age = Keep -> trimDecision t ratings age' = Keep).
Proof.
  intros Hle. split.
  - unfold blurDecision.
    destruct (shouldBlur t ratings age') eqn:Hb'; [|reflexivity].
    apply shouldBlur_true_iff in Hb' as (s & Hs & Hin & Hv).
    assert (Hb : shouldBlur t ratings age = true).
    { apply shouldBlur_true_iff. exists s. split; [exact Hs|]. split; [exact Hin | lia]. }
    now rewrite Hb.
  - unfold trimDecision. rewrite !shouldInclude_first_match.
    destruct (List.find (inTrimRange t) (sortByStart ratings)) as [s|]; [|auto].
    destruct (getRatingValue (Rating s) <=? age) eqn:Hv; [|discriminate].
    apply Z.leb_le in Hv. intros _.
    assert (Hv' : (getRatingValue (Rating s) <=? age') = true) by (apply Z.leb_le; lia).
    now rewrite Hv'.
Qed.

Lemma higher_age_keeps_more_witness :
  trimDecision 1.5 [scenarioSegment] 18 = Keep.
Proof.
  refine (proj2 (higher_age_keeps_more 1.5 [scenarioSegment] 16 18 _) _).
  - lia.
  - reflexivity.
Defined.

(** X11. When no segment is rated above the target age, blur mode writes
    every frame unmodified, and trim mode keeps exactly the frames that
    fall in some segment (within the tolerance). *)
Theorem nothing_above_threshold (frames : list Frame) (ratings : list RatingResult)
    (age : Z) (fps : float) (totalFrames : Z) :
  (forall s, In s ratings -> getRatingValue (Rating s) <= age) ->
  blurInappropriateContent frames ratings age fps totalFrames =
    Returned (map (fun n : nat => Unmodified (Z.of_nat n))
                  (seq 0 (Nat.min (length frames) (Z.to_nat totalFrames)))) /\
  (forall t, trimDecision t ratings age = Keep <->
             exists s, In s ratings /\ inSegment t s).
Proof.
  intros Hall. split.
  - unfold blurInappropriateContent. rewrite blurLoop_closed_form, Z.sub_0_r.
    f_equal. apply map_ext. intros n.
    destruct (shouldBlur (F.of_int (0 + Z.of_nat n) / fps)%float ratings age) eqn:Hb;
      [|reflexivity].
    apply shouldBlur_true_iff in Hb as (s & Hs & _ & Hv).
    specialize (Hall s Hs). lia.
  - intros t. unfold trimDecision. rewrite shouldInclude_first_match.
    destruct (List.find (inTrimRange t) (sortByStart ratings)) as [s|] eqn:Hfind.
    + apply find_some in Hfind as [Hs Hin].
      apply (proj1 (sortByStart_In _ _)) in Hs.
      apply (proj1 (inTrimRange_iff _ _)) in Hin.
      assert (Hv : (getRatingValue (Rating s) <=? age) = true)
        by (apply Z.leb_le; now apply Hall).
      rewrite Hv. split; [eauto | reflexivity].
    + split; [discriminate|]. intros (s & Hs & Hin). exfalso.
      apply (proj2 (sortByStart_In _ _)) in Hs.
      apply (find_none _ _ Hfind) in Hs.
      apply (proj2 (inTrimRange_iff _ _)) in Hin. congruence.
Qed.

Lemma nothing_above_threshold_witness :
  blurInappropriateContent
    [mkFrame true (Classified "" ""); mkFrame true (Classified "" "")]
    [mkRatingResult 0 1 "6+" ""; mkRatingResult 1 2 "12+" ""] 12 1 2
  = Returned [Unmodified 0; Unmodified 1].
Proof.
  refine (proj1 (nothing_above_threshold
                   [mkFrame true (Classified "" ""); mkFrame true (Classified "" "")]
                   [mkRatingResult 0 1 "6+" ""; mkRatingResult 1 2 "12+" ""]
                   12 1 2 _)).
  intros s [<- | [<- | []]]; vm_compute; discriminate.
Defined.

(** X12. A video whose frame count property is zero or negative gives an
    output without frames in both modes, and the editor still returns
    without error. *)
Theorem no_frame_count_no_output (video : Video) (age n : Z)
    (ratings : list RatingResult) (videoType : string) :
  F.to_int (VideoCaptureFrameCount video) = Some n -> n <= 0 ->
  processVideoByAge (Opened video) None age ratings videoType = Returned [].
Proof.
  intros Hcount Hn. unfold processVideoByAge. rewrite Hcount.
  assert (Hend : (n <=? 0) = true) by now apply Z.leb_le.
  destruct (String.eqb videoType "blur").
  - unfold blurInappropriateContent.
    destruct (frames video); simpl; [reflexivity | now rewrite Hend].
  - unfold trimInappropriateContent.
    destruct (frames video); simpl; [reflexivity | now rewrite Hend].
Qed.

Lemma no_frame_count_no_output_witness :
  processVideoByAge
    (Opened (mkVideo 30 0 [mkFrame true (Classified "18+" "gore")]))
    None 12 [mkRatingResult 0 1 "18+" "gore"] "trim"
  = Returned [].
Proof.
  apply (no_frame_count_no_output _ 12 0); [reflexivity | lia].
Defined.

(** ** The convert request: what runs, and what is cleaned up *)

Lemma validated_age (a : string) :
  (negb (String.eqb a "6") && negb (String.eqb a "12") && negb (String.eqb a "16"))
  = false ->
  (a = "6" /\ Atoi a = Some 6) \/ (a = "12" /\ Atoi a = Some 12) \/
  (a = "16" /\ Atoi a = Some 16).
Proof.
  destruct (String.eqb a "6") eqn:H6; [apply String.eqb_eq in H6; subst; auto|].
  destruct (String.eqb a "12") eqn:H12; [apply String.eqb_eq in H12; subst; auto|].
  destruct (String.eqb a "16") eqn:H16; [apply String.eqb_eq in H16; subst; auto|].
  discriminate.
Qed.

Lemma validated_type (v : string) :
  (negb (String.eqb v "blur") && negb (String.eqb v "trim")) = false ->
  v = "blur" \/ v = "trim".
Proof.
  destruct (String.eqb v "blur") eqn:Hb; [apply String.eqb_eq in Hb; auto|].
  destruct (String.eqb v "trim") eqn:Ht; [apply String.eqb_eq in Ht; auto|].
  discriminate.
Qed.

(** The shape of every run of [convertVideo] that gets past the
    validation. *)
Lemma convertVideo_cases (req : ConvertRequest) :
  (exists msg, convertVideo req = (Returned (mkResponse StatusBadRequest (Some msg)), [])) \/
  (convertVideo req =
     (Returned (mkResponse StatusInternalServerError (Some "Failed to save video file")),
      [SaveUploadedFile]) /\ saveFails req = true) \/
  (exists ageInt ratings,
     (ageInt = 6 \/ ageInt = 12 \/ ageInt = 16) /\
     Atoi (age req) = Some ageInt /\
     (video_type req = "blur" \/ video_type req = "trim") /\
     saveFails req = false /\
     ratings = (if String.eqb (ratingsStr req) "" then []
                else match unmarshal req with inr rs => rs | inl _ => [] end) /\
     let run := processVideoByAge (savedVideo req) (writerError req) ageInt ratings
                                  (video_type req) in
     convertVideo req =
     match run with
     | Returned _ =>
         (Returned (mkResponse StatusOK None),
          [SaveUploadedFile; ProcessVideoByAge run; Remove])
     | Failed err =>
         (Returned (mkResponse StatusInternalServerError (Some err)),
          [SaveUploadedFile; ProcessVideoByAge run; Remove])
     | Panicked => (Panicked, [SaveUploadedFile; ProcessVideoByAge run])
     | Unportable => (Unportable, [SaveUploadedFile; ProcessVideoByAge run])
     end).
Proof.
  unfold convertVideo, reject.
  destruct (video_path req); [|left; eauto].
  destruct (String.eqb (ratingsStr req) "") eqn:Hstr.
  - destruct (String.eqb (age req) ""); [left; eauto|].
    destruct (String.eqb (video_type req) ""); [left; eauto|].
    destruct (negb (String.eqb (age req) "6") && negb (String.eqb (age req) "12")
              && negb (String.eqb (age req) "16")) eqn:Hage; [left; eauto|].
    destruct (negb (String.eqb (video_type req) "blur")
              && negb (String.eqb (video_type req) "trim")) eqn:Htype; [left; eauto|].
    destruct (saveFails req) eqn:Hsave; [right; left; auto|].
    right. right. apply validated_type in Htype.
    destruct (validated_age _ Hage) as [[Ha Hatoi] | [[Ha Hatoi] | [Ha Hatoi]]];
      rewrite Hatoi; eexists _, []; repeat split; eauto;
      destruct (processVideoByAge _ _ _ _ _); reflexivity.
  - destruct (unmarshal req) as [err | rs]; [left; eauto|].
    destruct (String.eqb (age req) ""); [left; eauto|].
    destruct (String.eqb (video_type req) ""); [left; eauto|].
    destruct (negb (String.eqb (age req) "6") && negb (String.eqb (age req) "12")
              && negb (String.eqb (age req) "16")) eqn:Hage; [left; eauto|].
    destruct (negb (String.eqb (video_type req) "blur")
              && negb (String.eqb (video_type req) "trim")) eqn:Htype; [left; eauto|].
    destruct (saveFails req) eqn:Hsave; [right; left; auto|].
    right. right. apply validated_type in Htype.
    destruct (validated_age _ Hage) as [[Ha Hatoi] | [[Ha Hatoi] | [Ha Hatoi]]];
      rewrite Hatoi; eexists _, rs; repeat split; eauto;
      destruct (processVideoByAge _ _ _ _ _); reflexivity.
Qed.

(** X13. [convertVideo] runs the editor only on a validated policy: the age
    handed to it is 6, 12 or 16 (the number [strconv.Atoi] reads from the
    form field, which therefore cannot fail) and the type is "blur" or
    "trim". Every answer with status 400 is given before any effect. *)
Theorem editor_runs_only_on_valid_policy (req : ConvertRequest) :
  (forall run, In (ProcessVideoByAge run) (snd (convertVideo req)) ->
     exists ageInt ratings,
       (ageInt = 6 \/ ageInt = 12 \/ ageInt = 16) /\
       Atoi (age req) = Some ageInt /\
       (video_type req = "blur" \/ video_type req = "trim") /\
       run = processVideoByAge (savedVideo req) (writerError req) ageInt ratings
                               (video_type req)) /\
  (forall resp, fst (convertVideo req) = Returned resp ->
     status resp = StatusBadRequest -> snd (convertVideo req) = []).
Proof.
  destruct (convertVideo_cases req)
    as [[msg Hc] | [[Hc Hsave] | (ageInt & ratings & Hage & Hatoi & Htype & Hsave & _ & Hc)]].
  - rewrite Hc. simpl. split; [intros run [] | reflexivity].
  - rewrite Hc. simpl. split.
    + intros run [H | []]. discriminate.
    + intros resp Hresp. injection Hresp as <-. discriminate.
  - simpl in Hc. rewrite Hc. split.
    + intros run Hin. exists ageInt, ratings.
      split; [exact Hage|]. split; [exact Hatoi|]. split; [exact Htype|].
      destruct (processVideoByAge _ _ _ _ _) eqn:Hrun; simpl in Hin;
        destruct Hin as [H | [H | Hin]]; try discriminate;
        try (injection H as <-; reflexivity);
        try (destruct Hin as [H | []]; discriminate); destruct Hin.
    + intros resp Hresp.
      destruct (processVideoByAge _ _ _ _ _); simpl in Hresp; try discriminate;
        injection Hresp as <-; discriminate.
Qed.

Lemma editor_runs_only_on_valid_policy_witness :
  let req := mkConvertRequest "12" "blur" "" (Some "clip.mp4") (inr []) false
               (Opened (mkVideo 30 1 [mkFrame true (Classified "6+" "")])) None in
  exists ageInt ratings,
    (ageInt = 6 \/ ageInt = 12 \/ ageInt = 16) /\
    Atoi (age req) = Some ageInt /\
    (video_type req = "blur" \/ video_type req = "trim") /\
    Returned [Unmodified 0] =
      processVideoByAge (savedVideo req) (writerError req) ageInt ratings (video_type req).
Proof.
  intros req.
  apply (proj1 (editor_runs_only_on_valid_policy req) (Returned [Unmodified 0])).
  vm_compute. right. now left.
Defined.

(** X14. Whenever [convertVideo] has stored the upload and returns an
    answer, its last effect is the removal of the upload, and the answer
    is 200 when the editor returned and 500 when it failed. A panic of the
    editor leaves the upload in place. *)
Theorem convert_removes_the_upload (req : ConvertRequest) :
  saveFails req = false -> In SaveUploadedFile (snd (convertVideo req)) ->
  (forall resp, fst (convertVideo req) = Returned resp ->
     last (snd (convertVideo req)) = Some Remove /\
     (status resp = StatusOK <->
      exists written, In (ProcessVideoByAge (Returned written)) (snd (convertVideo req))) /\
     (status resp = StatusInternalServerError <->
      exists err, In (ProcessVideoByAge (Failed err)) (snd (convertVideo req)))) /\
  (fst (convertVideo req) = Panicked -> ~ In Remove (snd (convertVideo req))).
Proof.
  intros Hsave Hsaved.
  destruct (convertVideo_cases req)
    as [[msg Hc] | [[Hc Hfail] | (ageInt & ratings & _ & _ & _ & _ & _ & Hc)]].
  - rewrite Hc in Hsaved. destruct Hsaved.
  - congruence.
  - simpl in Hc. rewrite Hc. clear Hc Hsaved.
    destruct (processVideoByAge _ _ _ _ _) as [written | err | |]; simpl; split;
      try discriminate.
    + intros resp Hresp. injection Hresp as <-. split; [reflexivity|].
      split; [split; [eauto | reflexivity]|].
      split; [discriminate|].
      intros (err & [H | [H | [H | []]]]); discriminate.
    + intros resp Hresp. injection Hresp as <-. split; [reflexivity|].
      split; [|split; [eauto | reflexivity]].
      split; [discriminate|].
      intros (written & [H | [H | [H | []]]]); discriminate.
    + intros _ [H | [H | []]]; discriminate.
Qed.

Lemma convert_removes_the_upload_witness :
  let req := mkConvertRequest "12" "blur" "" (Some "clip.mp4") (inr []) false
               (OpenError "no such file") None in
  last (snd (convertVideo req)) = Some Remove.
Proof.
  intros req.
  refine (proj1 (proj1 (convert_removes_the_upload req _ _)
                   (mkResponse StatusInternalServerError
                      (Some "failed to open video: no such file")) _)).
  - reflexivity.
  - vm_compute. now left.
  - reflexivity.
Defined.

(** X15. A convert request with an empty ratings field does not consult
    the JSON decoder and runs the editor without segments. When the request
    has a video and an age of 6, 12 or 16, the upload is stored, the stored
    file opens as a video, the writer is created, the frame count and the
    frame rate convert to integers and [int(fps)] is not zero, it answers
    200: in trim mode for an output without any frame, in blur mode for the
    frames as they are. *)
Theorem convert_without_ratings (req : ConvertRequest) (video : Video)
    (total step : Z) :
  video_path req <> None -> ratingsStr req = "" ->
  age req = "6" \/ age req = "12" \/ age req = "16" ->
  saveFails req = false -> savedVideo req = Opened video -> writerError req = None ->
  F.to_int (VideoCaptureFrameCount video) = Some total ->
  F.to_int (defaultFps (VideoCaptureFPS video)) = Some step -> step <> 0 ->
  (video_type req = "trim" ->
   convertVideo req =
   (Returned (mkResponse StatusOK None),
    [SaveUploadedFile; ProcessVideoByAge (Returned []); Remove])) /\
  (video_type req = "blur" ->
   convertVideo req =
   (Returned (mkResponse StatusOK None),
    [SaveUploadedFile;
     ProcessVideoByAge
       (Returned (map (fun n : nat => Unmodified (Z.of_nat n))
                      (seq 0 (Nat.min (length (frames video)) (Z.to_nat total)))));
     Remove])).
Proof.
  intros Hfile Hstr Hage Hsave Hopen Hwriter Hcount Hstep Hnz.
  assert (Htrim : forall ageInt,
    trimInappropriateContent (frames video) [] ageInt
      (defaultFps (VideoCaptureFPS video)) total = Returned []).
  { intros ageInt.
    destruct (trimLoop_written (sortByStart []) ageInt
                (defaultFps (VideoCaptureFPS video)) total step (frames video)
                Hstep Hnz 0) as (written & Hrun & Hmem).
    unfold trimInappropriateContent. rewrite Hrun.
    destruct written as [|w written]; [reflexivity|]. exfalso.
    destruct (trimLoop_shape _ _ _ _ _ _ _ Hrun) as [Hall _].
    apply Forall_cons in Hall as [(k & -> & _) _].
    destruct (proj1 (Hmem k) (or_introl eq_refl)) as (_ & _ & Hinc).
    vm_compute in Hinc. discriminate. }
  assert (Hblur : forall ageInt,
    blurInappropriateContent (frames video) [] ageInt
      (defaultFps (VideoCaptureFPS video)) total =
    Returned (map (fun n : nat => Unmodified (Z.of_nat n))
                  (seq 0 (Nat.min (length (frames video)) (Z.to_nat total))))).
  { intros ageInt. unfold blurInappropriateContent.
    now rewrite blurLoop_closed_form, Z.sub_0_r. }
  split; intros Htype; unfold convertVideo;
    (destruct (video_path req); [|contradiction]);
    rewrite Hstr, Htype, Hsave;
    destruct Hage as [-> | [-> | ->]]; simpl;
    unfold processVideoByAge; rewrite Hopen, Hcount, Hwriter; simpl;
    rewrite ?Htrim, ?Hblur; reflexivity.
Qed.

Lemma convert_without_ratings_witness :
  convertVideo (mkConvertRequest "12" "trim" "" (Some "clip.mp4") (inl "unused") false
                  (Opened (mkVideo 30 2 [mkFrame true (Classified "6+" "");
                                         mkFrame true (Classified "6+" "")])) None)
  = (Returned (mkResponse StatusOK None),
     [SaveUploadedFile; ProcessVideoByAge (Returned []); Remove]).
Proof.
  refine (proj1 (convert_without_ratings
                   (mkConvertRequest "12" "trim" "" (Some "clip.mp4") (inl "unused") false
                      (Opened (mkVideo 30 2 [mkFrame true (Classified "6+" "");
                                             mkFrame true (Classified "6+" "")])) None)
                   (mkVideo 30 2 [mkFrame true (Classified "6+" "");
                                  mkFrame true (Classified "6+" "")])
                   2 30 _ _ _ _ _ _ _ _ _) _);
    try reflexivity; try discriminate.
  right. now left.
Defined.

(** ** The upload request *)

(** X16. [uploadVideo] removes the stored upload exactly when it answers
    200 with ratings. When the stored file cannot be opened as a video it
    answers 500 with the error and leaves the upload in place. *)
Theorem upload_removed_only_on_success (req : UploadRequest) :
  (In Remove (snd (uploadVideo req)) <->
   exists ratings,
     fst (uploadVideo req) = Returned (mkUploadResponse StatusOK None (Some ratings))) /\
  (forall name err,
     upload_file req = Some name -> upload_saveFails req = false ->
     upload_stored req = OpenError err ->
     uploadVideo req =
     (Returned (mkUploadResponse StatusInternalServerError
                                 (Some ("failed to open video: " ++ err)%string) None),
      [SaveUploadedFile])).
Proof.
  split.
  - unfold uploadVideo. destruct (upload_file req); simpl.
    + destruct (upload_saveFails req); simpl.
      * split; [intros [H | []]; discriminate | intros (r & H); discriminate].
      * destruct (processVideo (upload_stored req)); simpl.
        -- split; [eauto | intros _; right; now left].
        -- split; [intros [H | []]; discriminate | intros (r & H); discriminate].
        -- split; [intros [H | []]; discriminate | intros (r & H); discriminate].
        -- split; [intros [H | []]; discriminate | intros (r & H); discriminate].
    + split; [intros [] | intros (r & H); discriminate].
  - intros name err Hfile Hsave Hopen. unfold uploadVideo.
    now rewrite Hfile, Hsave, Hopen.
Qed.

Lemma upload_removed_only_on_success_witness :
  uploadVideo (mkUploadRequest (Some "clip.mp4") false (OpenError "not a video")) =
  (Returned (mkUploadResponse StatusInternalServerError
                              (Some "failed to open video: not a video") None),
   [SaveUploadedFile]).
Proof.
  apply (proj2 (upload_removed_only_on_success
                  (mkUploadRequest (Some "clip.mp4") false (OpenError "not a video")))
               "clip.mp4" "not a video"); reflexivity.
Defined.

(** X17. A classifier failure is not an error of the upload request: the
    answer has status 200, its ratings are the single segment that
    carries the error text, and the upload is removed. *)
Theorem upload_answers_200_on_classifier_failure (req : UploadRequest)
    (name : string) (video : Video) (step : Z)
    (pre : list Frame) (f : Frame) (post : list Frame) (err : string) :
  upload_file req = Some name -> upload_saveFails req = false ->
  upload_stored req = Opened video ->
  frames video = pre ++ f :: post ->
  F.to_int (defaultFps (VideoCaptureFPS video)) = Some step -> step <> 0 ->
  Z.rem (Z.of_nat (length pre)) step = 0 ->
  encodes f = true -> verdict f = ClassifierError err ->
  (forall (n : nat) (g : Frame),
      pre !! n = Some g -> Z.rem (Z.of_nat n) step = 0 ->
      encodes g = true -> exists r nt, verdict g = Classified r nt) ->
  uploadVideo req =
  (Returned
     (mkUploadResponse StatusOK None
        (Some [errorSegment
                 (F.of_int (Z.of_nat (length pre)) / defaultFps (VideoCaptureFPS video))%float
                 err])),
   [SaveUploadedFile; Remove]).
Proof.
  intros Hfile Hsave Hopen Hframes Hstep Hnz Hsampled Henc Hverdict Hpre.
  unfold uploadVideo. rewrite Hfile, Hsave, Hopen.
  unfold processVideo, analyze. rewrite Hframes.
  destruct (sampleLoop_failure (defaultFps (VideoCaptureFPS video)) step f post err
              Hstep Hnz Henc Hverdict pre 0 initState) as (H1 & _).
  - exact Hsampled.
  - intros n g Hn Hrem. apply (Hpre n g Hn). exact Hrem.
  - simpl in H1. now rewrite H1.
Qed.

Lemma upload_answers_200_on_classifier_failure_witness :
  uploadVideo
    (mkUploadRequest (Some "clip.mp4") false
       (Opened (mkVideo 1 2 [mkFrame true (Classified "6+" "kids");
                             mkFrame true (ClassifierError "timeout")]))) =
  (Returned (mkUploadResponse StatusOK None
               (Some [mkRatingResult 1 0 "Error: timeout" ""])),
   [SaveUploadedFile; Remove]).
Proof.
  apply (upload_answers_200_on_classifier_failure _ "clip.mp4"
           (mkVideo 1 2 [mkFrame true (Classified "6+" "kids");
                         mkFrame true (ClassifierError "timeout")])
           1 [mkFrame true (Classified "6+" "kids")]
           (mkFrame true (ClassifierError "timeout")) [] "timeout");
    try reflexivity.
  - lia.
  - intros [|n] g Hn _ _; [|destruct n; discriminate].
    injection Hn as <-. simpl. eauto.
Defined.

(** ** The classifier's reply *)

Lemma str_length_app (a b : string) :
  String.length (a ++ b)%string = (String.length a + String.length b)%nat.
Proof. induction a as [|c a IH]; simpl; [reflexivity | now rewrite IH]. Qed.

Lemma str_app_assoc (a b c : string) :
  ((a ++ b) ++ c)%string = (a ++ (b ++ c))%string.
Proof.
  induction a as [|x a IH]; [reflexivity|].
  change (String x ((a ++ b) ++ c) = String x (a ++ (b ++ c)))%string.
  now rewrite IH.
Qed.

Lemma Index_lower_bound (s : string) (c : ascii) : -1 <= Reply.Index s c.
Proof.
  induction s as [|a s IH]; simpl; [lia|].
  destruct (Ascii.eqb a c); [lia|].
  destruct (Reply.Index s c <? 0) eqn:H; [lia|]. apply Z.ltb_ge in H. lia.
Qed.

(** Where [strings.Index] finds the byte. *)
Lemma Index_found (s : string) (c : ascii) :
  Reply.Index s c <> -1 ->
  exists pre post, s = (pre ++ String c post)%string /\
                   Reply.Index s c = Z.of_nat (String.length pre).
Proof.
  induction s as [|a s IH]; simpl; [congruence|].
  destruct (Ascii.eqb a c) eqn:Hac.
  - apply Ascii.eqb_eq in Hac. subst. intros _. exists EmptyString, s. auto.
  - destruct (Reply.Index s c <? 0) eqn:Hneg; [congruence|].
    apply Z.ltb_ge in Hneg. intros _.
    destruct IH as (pre & post & -> & Hidx); [lia|].
    exists (String a pre), post. split; [reflexivity|].
    rewrite Hidx. simpl String.length. lia.
Qed.

Lemma Index_absent (pre post : string) (c : ascii) :
  Reply.Index (pre ++ String c post)%string c <> -1.
Proof.
  induction pre as [|a pre IH]; simpl.
  - rewrite Ascii.eqb_refl. discriminate.
  - destruct (Ascii.eqb a c); [discriminate|].
    pose proof (Index_lower_bound (pre ++ String c post)%string c).
    destruct (Reply.Index (pre ++ String c post)%string c <? 0) eqn:Hneg.
    + apply Z.ltb_lt in Hneg. lia.
    + apply Z.ltb_ge in Hneg. lia.
Qed.

Lemma Index_skips (pre rest : string) (c : ascii) :
  Reply.Index pre c = -1 ->
  Reply.Index (pre ++ String c rest)%string c = Z.of_nat (String.length pre).
Proof.
  induction pre as [|a pre IH]; simpl.
  - now rewrite Ascii.eqb_refl.
  - destruct (Ascii.eqb a c); [discriminate|].
    pose proof (Index_lower_bound pre c) as Hlb.
    destruct (Reply.Index pre c <? 0) eqn:Hneg.
    + apply Z.ltb_lt in Hneg. intros _. rewrite IH by lia.
      destruct (Z.of_nat (String.length pre) <? 0) eqn:H; [apply Z.ltb_lt in H; lia|].
      lia.
    + apply Z.ltb_ge in Hneg. lia.
Qed.

Lemma from_app (pre rest : string) :
  Reply.from (pre ++ rest)%string (String.length pre) = rest.
Proof.
  induction pre as [|a pre IH]; simpl; [now destruct rest | exact IH].
Qed.

Lemma substring_app (body rest : string) :
  String.substring 0 (String.length body) (body ++ rest)%string = body.
Proof.
  induction body as [|a body IH]; simpl; [now destruct rest | now rewrite IH].
Qed.

Lemma TrimSuffix_app (body suffix : string) :
  Reply.TrimSuffix (body ++ suffix)%string suffix = body.
Proof.
  unfold Reply.TrimSuffix, Reply.HasSuffix. rewrite str_length_app.
  replace (String.length body + String.length suffix - String.length suffix)%nat
    with (String.length body) by lia.
  rewrite from_app, String.eqb_refl, substring_app.
  assert (H : (String.length suffix <=? String.length body + String.length suffix)%nat
              = true) by (apply Nat.leb_le; lia).
  now rewrite H.
Qed.

Lemma TrimRight_allSpace (ws : string) : allSpace ws -> Strings.TrimRight ws = EmptyString.
Proof.
  induction ws as [|c ws IH]; [reflexivity|].
  simpl. intros [Hc Hws]. now rewrite (IH Hws), Hc.
Qed.

Lemma TrimRight_app_space (s ws : string) :
  allSpace ws -> Strings.TrimRight (s ++ ws)%string = Strings.TrimRight s.
Proof.
  intros Hws. induction s as [|c s IH]; simpl.
  - now apply TrimRight_allSpace.
  - now rewrite IH.
Qed.

Lemma TrimRight_visible (s : string) : endsVisible s -> Strings.TrimRight s = s.
Proof.
  induction s as [|c s IH]; [reflexivity|].
  destruct s as [|d s'].
  - simpl. now intros [-> _].
  - intros H. change (endsVisible (String d s')) in H.
    change (Strings.TrimRight (String c (String d s')))
      with (match Strings.TrimRight (String d s') with
            | EmptyString => if Strings.is_space c then EmptyString
                             else String c EmptyString
            | String _ _ as keep => String c keep
            end).
    now rewrite (IH H).
Qed.

Lemma endsVisible_app (s t : string) :
  t <> EmptyString -> endsVisible t -> endsVisible (s ++ t)%string.
Proof.
  intros Hne Ht. induction s as [|c s IH]; [exact Ht|].
  simpl. destruct (s ++ t)%string eqn:Hst; [|exact IH].
  destruct s; simpl in Hst; [contradiction | discriminate].
Qed.

Lemma jsonText_brace_lemma (content : string) :
  (Reply.jsonText content = None <->
   forall pre post, content <> (pre ++ String "{" post)%string) /\
  (forall text, Reply.jsonText content = Some text ->
                exists rest, text = String "{" rest).
Proof.
  unfold Reply.jsonText. split.
  - destruct (Reply.Index content "{" =? -1) eqn:Hidx.
    + apply Z.eqb_eq in Hidx. split; [|reflexivity].
      intros _ pre post ->. now apply (Index_absent pre post "{").
    + apply Z.eqb_neq in Hidx. split; [discriminate|].
      intros Hno. destruct (Index_found content "{" Hidx) as (pre & post & Heq & _).
      now destruct (Hno pre post).
  - intros text. destruct (Reply.Index content "{" =? -1) eqn:Hidx; [discriminate|].
    apply Z.eqb_neq in Hidx.
    destruct (Index_found content "{" Hidx) as (pre & post & -> & ->).
    rewrite Nat2Z.id, from_app. intros Htext. injection Htext as <-.
    unfold Strings.TrimSpace.
    change (Strings.TrimLeft (String "{" post)) with (String "{" post).
    assert (Hhead : exists k, Strings.TrimRight (String "{" post) = String "{" k).
    { simpl. destruct (Strings.TrimRight post); simpl; eauto. }
    destruct Hhead as [k ->].
    unfold Reply.TrimSuffix, Reply.HasSuffix.
    destruct ((String.length "```" <=? String.length (String "{" k))%nat
              && String.eqb (Reply.from (String "{" k)
                               (String.length (String "{" k) - String.length "```"))
                            "```") eqn:Hsuf; [|eauto].
    apply andb_true_iff in Hsuf as [Hlen Heq].
    apply Nat.leb_le in Hlen. apply String.eqb_eq in Heq.
    simpl String.length in *.
    destruct (String.length k - 2)%nat as [|m] eqn:Hm.
    + replace (S (String.length k) - 3)%nat with O in * by lia.
      simpl in Heq. discriminate.
    + replace (S (String.length k) - 3)%nat with (S m) by lia.
      simpl. eauto.
Qed.


(** X18. The text handed to the JSON decoder exists exactly when the
    content has an opening brace, and it always begins with that brace:
    whatever precedes the first brace is dropped. *)
Theorem jsonText_starts_at_the_brace (content : string) :
  (Reply.jsonText content = None <->
   forall pre post, content <> (pre ++ String "{" post)%string) /\
  (forall text, Reply.jsonText content = Some text ->
                exists rest, text = String "{" rest).
Proof. exact (jsonText_brace_lemma content). Qed.

Lemma jsonText_starts_at_the_brace_witness :
  exists rest, ("{}" : string) = String "{" rest.
Proof.
  apply (proj2 (jsonText_starts_at_the_brace "Here it is: {}")).
  reflexivity.
Defined.

(** X19. A reply made of text without brace, then an object, then a
    closing Markdown fence and ASCII white space is reduced to the object:
    one fence and the white space after it are removed. A reply made of
    text without brace, then an object that ends in an ASCII byte that is
    not white space (a closing brace, say) and not in a fence, then ASCII
    white space is reduced to the object as well. *)
Theorem jsonText_unwraps_the_object (pre inner ws : string) :
  Reply.Index pre "{" = -1 -> allSpace ws ->
  Reply.jsonText (pre ++ String "{" inner ++ "```" ++ ws)%string
    = Some (String "{" inner) /\
  (endsVisible (String "{" inner) ->
   Reply.HasSuffix (String "{" inner) "```" = false ->
   Reply.jsonText (pre ++ String "{" inner ++ ws)%string = Some (String "{" inner)).
Proof.
  intros Hpre Hws.
  assert (Hstart : forall tail,
    Reply.jsonText (pre ++ String "{" inner ++ tail)%string =
    Some (Reply.TrimSuffix (Strings.TrimRight (String "{" inner ++ tail)%string) "```")).
  { intros tail. unfold Reply.jsonText.
    change (pre ++ String "{" inner ++ tail)%string
      with (pre ++ String "{" (inner ++ tail))%string.
    rewrite (Index_skips pre (inner ++ tail) "{" Hpre).
    pose proof (Nat2Z.is_nonneg (String.length pre)) as Hpos.
    destruct (Z.of_nat (String.length pre) =? -1) eqn:H; [apply Z.eqb_eq in H; lia|].
    now rewrite Nat2Z.id, from_app. }
  split.
  - rewrite Hstart, <- str_app_assoc, TrimRight_app_space by exact Hws.
    rewrite TrimRight_visible.
    + now rewrite TrimSuffix_app.
    + apply endsVisible_app; [discriminate | split; reflexivity].
  - intros Hvisible Hfence.
    rewrite Hstart, TrimRight_app_space by exact Hws.
    rewrite TrimRight_visible by exact Hvisible.
    unfold Reply.TrimSuffix. now rewrite Hfence.
Qed.

Lemma jsonText_unwraps_the_object_witness :
  Reply.jsonText ("```json " ++ String "{" "rating: 6+}" ++ "```" ++ " ")%string
  = Some (String "{" "rating: 6+}").
Proof.
  refine (proj1 (jsonText_unwraps_the_object "```json " "rating: 6+}" " " _ _)).
  - reflexivity.
  - simpl. auto.
Defined.

(** ** The client *)

Lemma ratingValues_backend (key : string) (v : Z) :
  Client.ratingValues key = Some v -> getRatingValue key = v /\ 6 <= v.
Proof.
  unfold Client.ratingValues, getRatingValue.
  repeat match goal with |- context [String.eqb ?x ?y] => destruct (String.eqb x y) end;
    intros H; inversion H; lia.
Qed.

Lemma ratingValues_unknown (key : string) :
  Client.ratingValues key = None -> getRatingValue key = 0.
Proof.
  unfold Client.ratingValues, getRatingValue.
  repeat match goal with |- context [String.eqb ?x ?y] => destruct (String.eqb x y) end;
    intros H; try discriminate; reflexivity.
Qed.

(** The label left by the [forEach]: it has a number, no rating seen has a
    larger one, and it is the start label or a rating seen. *)
Lemma highest_fold (ratings : list RatingResult) (start : string) :
  (exists v, Client.ratingValues start = Some v) ->
  let highest :=
    fold_left
      (fun highestRating rating =>
         if Client.greater (Client.ratingValues (Rating rating))
                           (Client.ratingValues highestRating)
         then Rating rating else highestRating)
      ratings start in
  (exists v, Client.ratingValues highest = Some v) /\
  getRatingValue start <= getRatingValue highest /\
  (forall r, In r ratings -> getRatingValue (Rating r) <= getRatingValue highest) /\
  (highest = start \/ exists r, In r ratings /\ Rating r = highest).
Proof.
  revert start. induction ratings as [|r rest IH]; intros start Hstart; simpl.
  - split; [exact Hstart|]. split; [lia|]. split; [intros r []|now left].
  - destruct Hstart as [vs Hvs].
    destruct (ratingValues_backend _ _ Hvs) as [Hbs Hs6].
    destruct (Client.ratingValues (Rating r)) as [vr|] eqn:Hvr.
    + destruct (ratingValues_backend _ _ Hvr) as [Hbr _].
      rewrite Hvs. simpl Client.greater. destruct (vs <? vr) eqn:Hcmp.
      * apply Z.ltb_lt in Hcmp.
        destruct (IH (Rating r) (ex_intro _ vr Hvr)) as (H1 & H2 & H3 & H4).
        split; [exact H1|]. split; [lia|]. split.
        -- intros x [<- | Hx]; [exact H2 | now apply H3].
        -- right. destruct H4 as [Heq | (x & Hx & Heq)].
           ++ exists r. split; [now left | now symmetry].
           ++ exists x. split; [now right | exact Heq].
      * apply Z.ltb_ge in Hcmp.
        destruct (IH start (ex_intro _ vs Hvs)) as (H1 & H2 & H3 & H4).
        split; [exact H1|]. split; [exact H2|]. split.
        -- intros x [<- | Hx]; [lia | now apply H3].
        -- destruct H4 as [Heq | (x & Hx & Heq)]; [now left|].
           right. exists x. split; [now right | exact Heq].
    + rewrite Hvs. simpl Client.greater.
      pose proof (ratingValues_unknown _ Hvr) as Hzero.
      destruct (IH start (ex_intro _ vs Hvs)) as (H1 & H2 & H3 & H4).
      split; [exact H1|]. split; [exact H2|]. split.
      * intros x [<- | Hx]; [lia | now apply H3].
      * destruct H4 as [Heq | (x & Hx & Heq)]; [now left|].
        right. exists x. split; [now right | exact Heq].
Qed.

Lemma highest_rating_facts (ratings : list RatingResult) :
  (Client.getHighestRating ratings = None <-> ratings = []) /\
  (forall highest, Client.getHighestRating ratings = Some highest ->
     (highest = "6+" \/ highest = "12+" \/ highest = "16+" \/ highest = "18+") /\
     (highest = "6+" \/ exists r, In r ratings /\ Rating r = highest) /\
     (forall r, In r ratings -> getRatingValue (Rating r) <= getRatingValue highest)).
Proof.
  split.
  - destruct ratings; simpl; split; try discriminate; auto.
  - intros highest Hh.
    assert (Hfold : highest =
      fold_left
        (fun highestRating rating =>
           if Client.greater (Client.ratingValues (Rating rating))
                             (Client.ratingValues highestRating)
           then Rating rating else highestRating)
        ratings "6+").
    { destruct ratings; [discriminate|]. simpl in Hh. now injection Hh as <-. }
    destruct (highest_fold ratings "6+" (ex_intro _ 6 eq_refl)) as ([v Hv] & _ & H3 & H4).
    rewrite <- Hfold in *. split; [|split; assumption].
    revert Hv. unfold Client.ratingValues.
    destruct (String.eqb highest "6+") eqn:E6; [apply String.eqb_eq in E6; auto|].
    destruct (String.eqb highest "12+") eqn:E12; [apply String.eqb_eq in E12; auto|].
    destruct (String.eqb highest "16+") eqn:E16; [apply String.eqb_eq in E16; auto|].
    destruct (String.eqb highest "18+") eqn:E18; [apply String.eqb_eq in E18; auto|].
    discriminate.
Qed.


(** X20. The client's highest rating is absent exactly when there are no
    ratings. Otherwise it is one of the four labels, it is "6+" or the
    rating of a segment, and in the backend's scale no segment is rated
    above it. *)
Theorem highest_rating_dominates (ratings : list RatingResult) :
  (Client.getHighestRating ratings = None <-> ratings = []) /\
  (forall highest, Client.getHighestRating ratings = Some highest ->
     (highest = "6+" \/ highest = "12+" \/ highest = "16+" \/ highest = "18+") /\
     (highest = "6+" \/ exists r, In r ratings /\ Rating r = highest) /\
     (forall r, In r ratings -> getRatingValue (Rating r) <= getRatingValue highest)).
Proof. exact (highest_rating_facts ratings). Qed.

Lemma highest_rating_dominates_witness :
  getRatingValue (Rating (mkRatingResult 0 1 "12+" "fight")) <= getRatingValue "16+".
Proof.
  refine (proj2 (proj2 (proj2 (highest_rating_dominates
            [mkRatingResult 0 1 "12+" "fight"; mkRatingResult 2 3 "16+" "blood"])
            "16+" _)) (mkRatingResult 0 1 "12+" "fight") _).
  - reflexivity.
  - now left.
Defined.

(** X21. The conversion options the client offers are exactly the labels
    among "6+", "12+", "16+" that are rated strictly below the highest
    rating; there is none when the highest rating is "6+" or there are no
    ratings. *)
Theorem conversion_options_are_below (ratings : list RatingResult) (option : string) :
  In option (Client.getConversionOptions ratings) <->
  (option = "6+" \/ option = "12+" \/ option = "16+") /\
  exists highest, Client.getHighestRating ratings = Some highest /\
                  getRatingValue option < getRatingValue highest.
Proof.
  unfold Client.getConversionOptions.
  destruct (Client.getHighestRating ratings) as [highest|] eqn:Hh.
  - destruct (proj2 (highest_rating_facts ratings) highest Hh)
      as ([-> | [-> | [-> | ->]]] & _); simpl; split.
    + intros [].
    + intros ([-> | [-> | ->]] & h & Heq & Hlt); injection Heq as <-;
        vm_compute in Hlt; discriminate.
    + intros [<- | []]. split; [auto|]. eexists. split; [reflexivity|]. reflexivity.
    + intros ([-> | [-> | ->]] & h & Heq & Hlt); injection Heq as <-; auto;
        vm_compute in Hlt; discriminate.
    + intros [<- | [<- | []]]; (split; [auto|]); eexists; (split; [reflexivity|]);
        reflexivity.
    + intros ([-> | [-> | ->]] & h & Heq & Hlt); injection Heq as <-; auto;
        vm_compute in Hlt; discriminate.
    + intros [<- | [<- | [<- | []]]]; (split; [auto|]); eexists;
        (split; [reflexivity|]); reflexivity.
    + intros ([-> | [-> | ->]] & h & Heq & Hlt); auto.
  - simpl. split; [intros [] | intros (_ & h & Heq & _); discriminate].
Qed.

(** X22. A verdict with a rating comes from the first choice of the
    response alone: the other choices are never read, and the rating and
    notes are what the decoder makes of a text that begins with the first
    brace of that choice. Without choices, or without a brace in the first
    one, the verdict is an error whatever the decoder would answer. *)
Theorem verdict_comes_from_first_choice (choices : list string)
    (unmarshal : string -> string + string * string) :
  (forall r n, Reply.classify choices unmarshal = Classified r n ->
     exists content others rest,
       choices = content :: others /\
       Reply.jsonText content = Some (String "{" rest) /\
       unmarshal (String "{" rest) = inr (r, n)) /\
  (forall content others others',
     choices = content :: others ->
     Reply.classify choices unmarshal = Reply.classify (content :: others') unmarshal) /\
  (forall content others,
     choices = content :: others ->
     (forall pre post, content <> (pre ++ String "{" post)%string) ->
     Reply.classify choices unmarshal =
     ClassifierError "no JSON object found in response").
Proof.
  split; [|split].
  - intros r n Hv. destruct choices as [|content others]; [discriminate|].
    simpl in Hv. destruct (Reply.jsonText content) as [text|] eqn:Htext; [|discriminate].
    destruct (proj2 (jsonText_brace_lemma content) text Htext) as [rest ->].
    destruct (unmarshal (String "{" rest)) as [err | [r' n']] eqn:Hu; [discriminate|].
    injection Hv as <- <-. exists content, others, rest. auto.
  - intros content others others' ->. reflexivity.
  - intros content others -> Hno. simpl.
    now rewrite (proj2 (proj1 (jsonText_brace_lemma content)) Hno).
Qed.

Lemma verdict_comes_from_first_choice_witness :
  Reply.classify ["no object here"; "{}"] (fun _ => inr ("6+", "")) =
  ClassifierError "no JSON object found in response".
Proof.
  refine (proj2 (proj2 (verdict_comes_from_first_choice
                          ["no object here"; "{}"] (fun _ => inr ("6+", ""))))
                "no object here" ["{}"] eq_refl _).
  intros pre post H.
  apply (f_equal (fun s => Reply.Index s "{")) in H.
  vm_compute in H.
  now apply (Index_absent pre post "{").
Defined.
